(** * Layered configuration resolution of evosuite.agent_os.config

    A shallow embedding of [src/evosuite/agent_os/config.py] and the proofs
    of the properties its specification states about it.

    Modelling choices, all taken from the source:
    - a configuration value is a tree of the JSON data model, as
      [json.loads] builds it: [None], [bool], [int], [float], [str], [list],
      [dict] with string keys.  A [dict] is an insertion-ordered association
      list; a Python dict never holds a key twice, which is the predicate
      [wf] below.  What only [yaml.safe_load] can build (dates, binary data,
      sets, mappings with keys that are not strings) has no constructor:
      [json.dumps] raises [TypeError] on such a value, so a merge that
      unites lists holding one does not return.  The properties of
      [load_agent_os_config] on loaded layers are therefore stated for the
      runs that return, and those of [_deep_merge] for the values above.
      An [int] is one that the interpreter reads and prints: no parser
      returns one of more than [MAX_STR_DIGITS] digits;
    - a character is a code point below 256 (one [ascii]); the string methods
      the code calls ([startswith], [lower], [split], [isdigit]) are written
      out for such strings;
    - a [float] is carried by the text [json.dumps] prints for it (its [repr],
      or [NaN] / [Infinity] / [-Infinity]); the code does no arithmetic;
    - the code mutates [base] in place and stores references to parts of
      [incoming] in it.  The values merged are trees: no container is
      reachable twice, and [base] and [incoming] share nothing before the
      call.  Then a merge never writes to [incoming], and merging the same
      [incoming] again meets the shared parts as values equal to themselves;
      in-place mutation and functional update give the same result, and the
      functions below return the new value;
    - Python exceptions that can leave the entry point are the [Raise] results
      of the error monad [result]. *)

From Stdlib Require Import ZArith Ascii String List Bool Lia.
From stdpp Require Import gmap strings pretty sorting.

Local Open Scope string_scope.
Local Open Scope list_scope.

(** ** Structured values *)

#[warnings="-register-all"]
Inductive value : Type :=
| VNull
| VBool (b : bool)
| VInt (n : Z)
| VFloat (repr : string)
| VStr (s : string)
| VList (items : list value)
| VDict (entries : list (string * value)).

Abbreviation dict := (list (string * value)).

(** [isinstance(v, dict)], [isinstance(v, list)] and the scalars of the
    specification (string, number, boolean, null). *)
Definition is_dict (v : value) : bool :=
  match v with VDict _ => true | _ => false end.

Definition is_list (v : value) : bool :=
  match v with VList _ => true | _ => false end.

Definition is_scalar (v : value) : bool :=
  negb (is_dict v || is_list v).

(** Python truth value, as tested by [if defaults_cfg:] and by [x or {}]. *)
Definition truthy (v : value) : bool :=
  match v with
  | VNull => false
  | VBool b => b
  | VInt n => negb (n =? 0)%Z
  | VFloat r => negb (String.eqb r "0.0" || String.eqb r "-0.0")
  | VStr s => negb (String.eqb s EmptyString)
  | VList l => match l with [] => false | _ => true end
  | VDict d => match d with [] => false | _ => true end
  end.

(** ** Dictionaries: [k in d], [d[k]], [d[k] = v] *)

Fixpoint dict_get (k : string) (d : dict) : option value :=
  match d with
  | [] => None
  | (k', v) :: rest => if String.eqb k k' then Some v else dict_get k rest
  end.

(** Assignment keeps the position of a key that is present and puts a new
    key last. *)
Fixpoint dict_set (k : string) (v : value) (d : dict) : dict :=
  match d with
  | [] => [(k, v)]
  | (k', v') :: rest =>
      if String.eqb k k' then (k', v) :: rest else (k', v') :: dict_set k v rest
  end.

Definition keys (d : dict) : list string := map fst d.

(** A Python dict holds every key once, at every depth. *)
Fixpoint wf (v : value) : Prop :=
  match v with
  | VList l => (fix all (l : list value) : Prop :=
                  match l with [] => True | x :: r => wf x /\ all r end) l
  | VDict d => NoDup (map fst d) /\
               (fix all (d : dict) : Prop :=
                  match d with [] => True | (_, x) :: r => wf x /\ all r end) d
  | _ => True
  end.

(** ** [json.dumps(item, sort_keys=True)] *)

Definition dquote : ascii := "034"%char.
Definition backslash : ascii := "092"%char.

Definition hex_digit (n : N) : ascii :=
  ascii_of_N (if (n <? 10)%N then 48 + n else 87 + n).

(** [\uXXXX] of a code point below 256. *)
Definition unicode_escape (c : ascii) : string :=
  let n := N_of_ascii c in
  String backslash ("u00" +:+ String (hex_digit (n / 16)) (String (hex_digit (n mod 16)) EmptyString)).

(** [ensure_ascii] escaping: the two-character escapes, then [\uXXXX] for
    everything outside [' '..'~']. *)
Definition escape_char (c : ascii) : string :=
  let n := N_of_ascii c in
  if Ascii.eqb c dquote then String backslash (String dquote EmptyString)
  else if Ascii.eqb c backslash then String backslash (String backslash EmptyString)
  else if (n =? 10)%N then String backslash "n"
  else if (n =? 13)%N then String backslash "r"
  else if (n =? 9)%N then String backslash "t"
  else if (n =? 8)%N then String backslash "b"
  else if (n =? 12)%N then String backslash "f"
  else if ((32 <=? n) && (n <=? 126))%N then String c EmptyString
  else unicode_escape c.

Fixpoint escape (s : string) : string :=
  match s with
  | EmptyString => EmptyString
  | String c rest => escape_char c +:+ escape rest
  end.

Definition json_quote (s : string) : string :=
  String dquote (escape s +:+ String dquote EmptyString).

Fixpoint insert_by_key (e : string * string) (l : list (string * string))
  : list (string * string) :=
  match l with
  | [] => [e]
  | e' :: rest =>
      if String.leb (fst e) (fst e') then e :: l else e' :: insert_by_key e rest
  end.

Definition sort_by_key (l : list (string * string)) : list (string * string) :=
  fold_right insert_by_key [] l.

Definition dumps_item (e : string * string) : string :=
  json_quote (fst e) +:+ ": " +:+ snd e.

Fixpoint json_dumps_sorted (v : value) : string :=
  match v with
  | VNull => "null"
  | VBool true => "true"
  | VBool false => "false"
  | VInt n => pretty n
  | VFloat r => r
  | VStr s => json_quote s
  | VList l => "[" +:+ String.concat ", " (map json_dumps_sorted l) +:+ "]"
  | VDict d =>
      "{" +:+ String.concat ", "
               (map dumps_item
                  (sort_by_key (map (fun e => (fst e, json_dumps_sorted (snd e))) d)))
          +:+ "}"
  end.

(** ** [_deep_merge] *)

(** Lines 71-76: the loop over the incoming list, with the set [existing] of
    encodings seen so far. *)
Fixpoint append_unique (existing : gset string) (base_list incoming : list value)
  : list value :=
  match incoming with
  | [] => base_list
  | item :: rest =>
      let encoded := json_dumps_sorted item in
      if decide (encoded ∈ existing)
      then append_unique existing base_list rest
      else append_unique ({[encoded]} ∪ existing) (base_list ++ [item]) rest
  end.

Definition merge_lists (base_list incoming : list value) : list value :=
  append_unique (list_to_set (map json_dumps_sorted base_list)) base_list incoming.

(** One iteration of the loop of line 64, for the item [(k, v)]; [recurse] is
    the recursive call [_deep_merge(base[k], v)] of line 69. *)
Definition merge_item (recurse : dict -> dict) (k : string) (v : value) (base : dict)
  : dict :=
  match dict_get k base with
  | None => dict_set k v base
  | Some bv =>
      match bv, v with
      | VDict b, VDict _ => dict_set k (VDict (recurse b)) base
      | VList b, VList i => dict_set k (VList (merge_lists b i)) base
      | _, _ => dict_set k v base
      end
  end.

(** The recursion is on [incoming]; [merge_into v] is [_deep_merge(_, v)] for a
    dict [v]. *)
Fixpoint merge_into (incoming : value) (base : dict) {struct incoming} : dict :=
  match incoming with
  | VDict items =>
      (fix loop (items : dict) (base : dict) {struct items} : dict :=
         match items with
         | [] => base
         | (k, v) :: rest => loop rest (merge_item (merge_into v) k v base)
         end) items base
  | _ => base
  end.

Definition _deep_merge (base incoming : dict) : dict :=
  merge_into (VDict incoming) base.

(** ** Exceptions *)

Inductive exn : Type := AttributeError | TypeError | ValueError | KeyError.

Inductive result (A : Type) : Type :=
| Ok (a : A)
| Raise (e : exn).

Arguments Ok {A} a.
Arguments Raise {A} e.

#[export] Instance result_ret : MRet result := fun A a => Ok a.

#[export] Instance result_bind : MBind result := fun A B f m =>
  match m with
  | Ok a => f a
  | Raise e => Raise e
  end.

(** ** The string methods the code calls *)

(** [s[n:]] *)
Fixpoint string_drop (n : nat) (s : string) : string :=
  match n, s with
  | O, _ => s
  | S n', String _ rest => string_drop n' rest
  | S _, EmptyString => EmptyString
  end.

(** [str.lower] on code points below 256: [A-Z] and the Latin-1 capitals. *)
Definition lower_char (c : ascii) : ascii :=
  let n := N_of_ascii c in
  if ((65 <=? n) && (n <=? 90) || (192 <=? n) && (n <=? 222) && negb (n =? 215))%N
  then ascii_of_N (n + 32)
  else c.

Fixpoint lower (s : string) : string :=
  match s with
  | EmptyString => EmptyString
  | String c rest => String (lower_char c) (lower rest)
  end.

(** [path_str.split("__")]: cut at every double underscore, left to right. *)
Fixpoint split_dunder (s : string) : list string :=
  match s with
  | EmptyString => [EmptyString]
  | String "_"%char (String "_"%char rest) => EmptyString :: split_dunder rest
  | String c rest =>
      match split_dunder rest with
      | [] => [String c EmptyString]
      | part :: parts => String c part :: parts
      end
  end.

(** [str.isdigit]: at least one character, all of them digits.  Below 256 the
    digits are [0-9] and the superscripts U+00B2, U+00B3, U+00B9. *)
Definition is_decimal_char (c : ascii) : bool :=
  let n := N_of_ascii c in ((48 <=? n) && (n <=? 57))%N.

Definition is_digit_char (c : ascii) : bool :=
  let n := N_of_ascii c in
  is_decimal_char c || (n =? 178)%N || (n =? 179)%N || (n =? 185)%N.

Fixpoint string_forall (p : ascii -> bool) (s : string) : bool :=
  match s with
  | EmptyString => true
  | String c rest => p c && string_forall p rest
  end.

Definition isdigit (s : string) : bool :=
  negb (String.eqb s EmptyString) && string_forall is_digit_char s.

Fixpoint decimal_value (acc : Z) (s : string) : Z :=
  match s with
  | EmptyString => acc
  | String c rest => decimal_value (10 * acc + Z.of_N (N_of_ascii c - 48)) rest
  end.

(** The interpreter's limit on the number of digits that [int] converts
    ([sys.int_info.default_max_str_digits]); leading zeros count. *)
Definition MAX_STR_DIGITS : nat := 4300.

(** [int(s)] on a string that passed [isdigit]: only [0-9] are accepted, and
    no more than [MAX_STR_DIGITS] of them; [ValueError] otherwise. *)
Definition int_of_string (s : string) : result Z :=
  if string_forall is_decimal_char s && (String.length s <=? MAX_STR_DIGITS)%nat
  then Ok (decimal_value 0 s)
  else Raise ValueError.

(** ** The filesystem *)

Abbreviation path := (list string).

#[warnings="-register-all"]
Inductive node : Type :=
| File (text : string)
| Unreadable (message : string)
| Dir (children : list (string * node)).

Fixpoint child (name : string) (children : list (string * node)) : option node :=
  match children with
  | [] => None
  | (name', n) :: rest => if String.eqb name name' then Some n else child name rest
  end.

Fixpoint fs_lookup (n : node) (p : path) : option node :=
  match p with
  | [] => Some n
  | name :: rest =>
      match n with
      | Dir children =>
          match child name children with
          | Some n' => fs_lookup n' rest
          | None => None
          end
      | _ => None
      end
  end.

(** [Path.name] and [Path.suffix]. *)
Definition path_name (p : path) : string := List.last p EmptyString.

Fixpoint from_last_dot (s : string) : option string :=
  match s with
  | EmptyString => None
  | String c rest =>
      match from_last_dot rest with
      | Some t => Some t
      | None => if Ascii.eqb c "."%char then Some s else None
      end
  end.

Definition suffix (name : string) : string :=
  match name with
  | EmptyString => EmptyString
  | String _ rest =>
      match from_last_dot rest with
      | Some t => if Nat.eqb (String.length t) 1 then EmptyString else t
      | None => EmptyString
      end
  end.

Definition CONFIG_FILENAMES : list string := ["config.yaml"; "config.yml"; "config.json"].

Definition PREFIX : string := "EVOSUITE_AGENT_OS_".

Definition PROVENANCE : string := "_provenance".

(** What the host gives the code: the platform identity, the home directory,
    the directory of the module, the filesystem and the environment table in
    its enumeration order. *)
Record host : Type := {
  os_name : string;
  sys_platform : string;
  home : path;
  module_dir : path;
  fs_root : node;
  environ : list (string * string)
}.

Inductive parsed : Type :=
| Parsed (v : value)
| ParseError (message : string).

Section Config.

(** The library functions the module imports: [json.loads],
    [yaml.safe_load] ([None] when the import of line 26 failed), [str] of a
    path and [Path] of a string. *)
Variable json_loads : string -> parsed.
Variable yaml : option (string -> parsed).
Variable path_str : path -> string.
Variable path_of_string : string -> path.

Variable h : host.

Definition path_exists (p : path) : bool :=
  match fs_lookup (fs_root h) p with Some _ => true | None => false end.

(** [path.read_text()], with the message of the exception when it fails. *)
Definition read_text (p : path) : string + string :=
  match fs_lookup (fs_root h) p with
  | Some (File text) => inl text
  | Some (Unreadable message) => inr message
  | Some (Dir _) => inr ("[Errno 21] Is a directory: '" +:+ path_str p +:+ "'")
  | None => inr ("[Errno 2] No such file or directory: '" +:+ path_str p +:+ "'")
  end.

Definition environ_get (name : string) : option string :=
  snd <$> List.find (fun e => String.eqb (fst e) name) (environ h).

Definition _platform_user_config_root : path :=
  if String.eqb (os_name h) "nt" then
    match environ_get "APPDATA" with
    | Some s => path_of_string s
    | None => home h ++ ["AppData"; "Roaming"]
    end ++ ["EvoSuite"; "agent-os"]
  else if String.eqb (sys_platform h) "darwin" then
    home h ++ ["Library"; "Application Support"; "EvoSuite"; "agent-os"]
  else
    home h ++ [".config"; "evosuite"; "agent-os"].

(** Line 59. *)
Definition load_error (p : path) (message : string) : value :=
  VDict [("_error", VStr ("Failed loading " +:+ path_name p +:+ ": " +:+ message))].

(** The body of the [try] for one parser; [or_empty] is the [or {}] of
    line 55. *)
Definition parse_file (parser : string -> parsed) (or_empty : bool) (p : path) : value :=
  match read_text p with
  | inr message => load_error p message
  | inl text =>
      match parser text with
      | ParseError message => load_error p message
      | Parsed v => if or_empty && negb (truthy v) then VDict [] else v
      end
  end.

Definition _load_file (p : path) : value :=
  if negb (path_exists p) then VDict []
  else
    let sfx := suffix (path_name p) in
    match yaml with
    | Some safe_load =>
        if String.eqb sfx ".yaml" || String.eqb sfx ".yml"
        then parse_file safe_load true p
        else if String.eqb sfx ".json" then parse_file json_loads false p
        else VDict []
    | None =>
        if String.eqb sfx ".json" then parse_file json_loads false p else VDict []
    end.

Fixpoint first_config (names : list string) (dir_path : path) : value :=
  match names with
  | [] => VDict []
  | name :: rest =>
      let candidate := dir_path ++ [name] in
      if path_exists candidate then _load_file candidate
      else first_config rest dir_path
  end.

Definition _collect_layer_config (dir_path : path) : value :=
  first_config CONFIG_FILENAMES dir_path.

(** *** [_env_overrides] *)

(** Lines 103-111. *)
Definition coerce (raw : string) : result value :=
  if isdigit raw then n ← int_of_string raw; mret (VInt n)
  else if String.eqb (lower raw) "true" || String.eqb (lower raw) "false"
  then mret (VBool (String.eqb (lower raw) "true"))
  else
    match json_loads raw with
    | Parsed v => mret v
    | ParseError _ => mret (VStr raw)
    end.

(** [target[leaf] = coerced] *)
Definition setitem (target : value) (leaf : string) (coerced : value) : result value :=
  match target with
  | VDict d => Ok (VDict (dict_set leaf coerced d))
  | _ => Raise TypeError
  end.

(** Lines 99-100 followed by [finish] on the target reached: every
    [setdefault] returns the entry that is there, or a new empty dict. *)
Fixpoint descend (parts : list string) (finish : value -> result value)
  (target : value) : result value :=
  match parts with
  | [] => finish target
  | p :: rest =>
      match target with
      | VDict d =>
          let inner := match dict_get p d with Some x => x | None => VDict [] end in
          inner' ← descend rest finish inner;
          mret (VDict (dict_set p inner' d))
      | _ => Raise AttributeError
      end
  end.

(** One iteration of the loop of line 93. *)
Definition env_step (overrides : value) (entry : string * string) : result value :=
  let '(key, raw) := entry in
  if negb (String.prefix PREFIX key) then Ok overrides
  else
    let path_text := lower (string_drop (String.length PREFIX) key) in
    let parts := split_dunder path_text in
    descend (List.removelast parts)
      (fun target => coerced ← coerce raw; setitem target (List.last parts EmptyString) coerced)
      overrides.

Fixpoint env_loop (table : list (string * string)) (overrides : value) : result value :=
  match table with
  | [] => Ok overrides
  | entry :: rest => overrides' ← env_step overrides entry; env_loop rest overrides'
  end.

Definition _env_overrides : result value := env_loop (environ h) (VDict []).

(** *** [load_agent_os_config] *)

(** The call [_deep_merge(merged, cfg)]: [cfg.items()] needs a dict. *)
Definition deep_merge_call (merged : dict) (cfg : value) : result dict :=
  match cfg with
  | VDict incoming => Ok (_deep_merge merged incoming)
  | _ => Raise AttributeError
  end.

(** [merged["_provenance"].append(label)] *)
Definition provenance_append (label : string) (merged : dict) : result dict :=
  match dict_get PROVENANCE merged with
  | Some (VList l) => Ok (dict_set PROVENANCE (VList (l ++ [VStr label])) merged)
  | Some _ => Raise AttributeError
  | None => Raise KeyError
  end.

(** [if cfg: _deep_merge(merged, cfg); merged["_provenance"].append(label)] *)
Definition apply_layer (cfg : value) (label : string) (merged : dict) : result dict :=
  if truthy cfg then
    merged' ← deep_merge_call merged cfg;
    provenance_append label merged'
  else Ok merged.

Definition pkg_defaults_dir : path := module_dir h ++ ["defaults"].

Definition ws_dir (workspace_root : path) : path := workspace_root ++ [".agent-os"].

Definition load_agent_os_config (workspace_root : path) : result dict :=
  let merged := [(PROVENANCE, VList [])] in
  let defaults_cfg := _collect_layer_config pkg_defaults_dir in
  merged ← apply_layer defaults_cfg "package" merged;
  let user_dir := _platform_user_config_root in
  let user_cfg := _collect_layer_config user_dir in
  merged ← apply_layer user_cfg (path_str user_dir) merged;
  let ws_cfg := _collect_layer_config (ws_dir workspace_root) in
  merged ← apply_layer ws_cfg (path_str (ws_dir workspace_root)) merged;
  env_cfg ← _env_overrides;
  merged ← apply_layer env_cfg "env" merged;
  mret merged.

End Config.

(** ** Notions used to state the properties *)

(** The value left under a key by one iteration of [_deep_merge]: [old] is
    what [base] held for the key, [v] what [incoming] holds. *)
Definition merged_value (old : option value) (v : value) : value :=
  match old, v with
  | Some (VDict b), VDict i => VDict (_deep_merge b i)
  | Some (VList b), VList i => VList (merge_lists b i)
  | _, _ => v
  end.

(** The elements to append, in the words of the specification: an incoming
    element is taken when its encoding is not among those seen, and its
    encoding is seen from then on. *)
Fixpoint fresh_items (seen : list string) (incoming : list value) : list value :=
  match incoming with
  | [] => []
  | item :: rest =>
      if decide (json_dumps_sorted item ∈ seen)
      then fresh_items seen rest
      else item :: fresh_items (json_dumps_sorted item :: seen) rest
  end.

(** The value a layer sets for a top-level key, if it is a mapping that has
    the key. *)
Definition layer_get (k : string) (cfg : value) : option value :=
  match cfg with
  | VDict d => dict_get k d
  | _ => None
  end.

(** The value of the first layer of the list that sets the key; the list is
    given from the highest precedence down. *)
Fixpoint highest_setting (k : string) (layers : list value) : option value :=
  match layers with
  | [] => None
  | cfg :: lower =>
      match layer_get k cfg with
      | Some v => Some v
      | None => highest_setting k lower
      end
  end.

(** The keys of a layer that is a mapping are pairwise distinct. *)
Definition keys_unique (cfg : value) : Prop :=
  match cfg with
  | VDict d => NoDup (keys d)
  | _ => True
  end.

(** The identifiers of the non-empty layers, in the order given. *)
Fixpoint contributors (layers : list (value * string)) : list value :=
  match layers with
  | [] => []
  | (cfg, label) :: rest =>
      (if truthy cfg then [VStr label] else []) ++ contributors rest
  end.

(** A layer that is empty, or a mapping without the reserved key. *)
Definition unreserved (cfg : value) : Prop :=
  truthy cfg = true -> is_dict cfg = true /\ layer_get PROVENANCE cfg = None.

(** The value found by following a path of keys through nested mappings. *)
Fixpoint get_path (parts : list string) (v : value) : option value :=
  match parts with
  | [] => Some v
  | p :: rest =>
      match v with
      | VDict d =>
          match dict_get p d with
          | Some x => get_path rest x
          | None => None
          end
      | _ => None
      end
  end.

(** The first candidate file name present in a directory. *)
Definition first_existing (h : host) (dir_path : path) : option string :=
  List.find (fun name => path_exists h (dir_path ++ [name])) CONFIG_FILENAMES.

(** ** Sample hosts *)

(** A POSIX host with the given filesystem and environment table. *)
Definition posix_host (fs : node) (env : list (string * string)) : host :=
  {| os_name := "posix"; sys_platform := "linux";
     home := ["home"; "dev"];
     module_dir := ["site-packages"; "evosuite"; "agent_os"];
     fs_root := fs; environ := env |}.

Definition posix_str (p : path) : string :=
  String.concat "/" (EmptyString :: p).

Definition posix_path (s : string) : path := [s].

(** A JSON string literal without escapes. *)
Definition lit (s : string) : string :=
  String dquote (s +:+ String dquote EmptyString).

(** The JSON texts of the samples. *)
Definition list_text : string := "[1]".

Definition info_text : string := "{" +:+ lit "level" +:+ ": " +:+ lit "INFO" +:+ "}".

Definition debug_text : string := "{" +:+ lit "level" +:+ ": " +:+ lit "DEBUG" +:+ "}".

Definition reserved_text : string :=
  "{" +:+ lit "_provenance" +:+ ": [" +:+ lit "x" +:+ "]}".

(** Each sample text with the value [json.loads] returns for it. *)
Definition sample_texts : list (string * value) :=
  [(list_text, VList [VInt 1]);
   (info_text, VDict [("level", VStr "INFO")]);
   (debug_text, VDict [("level", VStr "DEBUG")]);
   (reserved_text, VDict [("_provenance", VList [VStr "x"])])].

(** A parser that agrees with [json.loads] on the sample texts and rejects
    every other text. *)
Definition sample_loads (text : string) : parsed :=
  match List.find (fun e => String.eqb (fst e) text) sample_texts with
  | Some e => Parsed (snd e)
  | None => ParseError "Expecting value: line 1 column 1 (char 0)"
  end.

(** The entry point and its parts on a POSIX host without the YAML
    package. *)
Definition sample_collect : host -> path -> value :=
  _collect_layer_config sample_loads None posix_str.

Definition sample_overrides : host -> result value := _env_overrides sample_loads.

Definition sample_load : host -> path -> result dict :=
  load_agent_os_config sample_loads None posix_str posix_path.

(** A filesystem with the given files in the packaged defaults directory,
    in the user directory and in the [.agent-os] directory of the workspace
    [/w]. *)
Definition sample_fs (package user workspace : list (string * node)) : node :=
  Dir [("site-packages", Dir [("evosuite", Dir [("agent_os",
         Dir [("defaults", Dir package)])])]);
       ("home", Dir [("dev", Dir [(".config", Dir [("evosuite",
         Dir [("agent-os", Dir user)])])])]);
       ("w", Dir [(".agent-os", Dir workspace)])].

(** Nothing to load: no file, no variable. *)
Definition bare_host : host := posix_host (Dir []) [].

(** Packaged defaults and a workspace file that both set [level], and a
    variable that sets it again. *)
Definition layered_host : host :=
  posix_host
    (sample_fs [("config.json", File info_text)] [] [("config.json", File debug_text)])
    [("HOME", "/home/dev"); ("EVOSUITE_AGENT_OS_LEVEL", "TRACE")].

(** A workspace file whose content is a JSON list. *)
Definition list_host : host :=
  posix_host (sample_fs [] [] [("config.json", File list_text)]) [].

(** Packaged defaults that use the reserved key. *)
Definition reserved_package_host : host :=
  posix_host (sample_fs [("config.json", File reserved_text)] [] []) [].

(** A user file that uses the reserved key. *)
Definition reserved_user_host : host :=
  posix_host (sample_fs [] [("config.json", File reserved_text)] []) [].

(** A workspace with both a YAML and a JSON candidate. *)
Definition two_candidates_host : host :=
  posix_host
    (sample_fs [] [] [("config.yaml", File "level: INFO"); ("config.json", File debug_text)])
    [].

(** A YAML parser that agrees with [yaml.safe_load] on the text of that
    host and rejects every other text. *)
Definition sample_yaml (text : string) : parsed :=
  if String.eqb text "level: INFO" then Parsed (VDict [("level", VStr "INFO")])
  else ParseError "could not determine a constructor".

(** U+00B2, superscript two. *)
Definition superscript_two : string := String "178"%char EmptyString.

(** Environment tables for the collision of a leaf and a mapping at [a]. *)
Definition mapping_then_leaf : list (string * string) :=
  [("EVOSUITE_AGENT_OS_A__B", "5"); ("EVOSUITE_AGENT_OS_A", "4")].

Definition leaf_then_mapping : list (string * string) :=
  [("EVOSUITE_AGENT_OS_A", "4"); ("EVOSUITE_AGENT_OS_A__B", "5")].

(** Dictionaries for the list union. *)
Definition tags_base : dict :=
  [("tags", VList [VStr "a"; VDict [("x", VInt 1); ("y", VNull)]]);
   ("logging", VDict [("level", VStr "INFO")])].

Definition tags_incoming : dict :=
  [("tags", VList [VDict [("y", VNull); ("x", VInt 1)]; VStr "b"; VStr "b"]);
   ("logging", VDict [("level", VStr "DEBUG"); ("sinks", VList [VStr "file"])])].

(** ** Notions used by the further properties *)

(** The order in which [sort_keys=True] puts two encoded items. *)
Definition key_le (e e' : string * string) : Prop :=
  String.le (fst e) (fst e').

(** A layer that [load_agent_os_config] merges without an exception: an
    empty one, or a mapping whose value for the reserved key, if it has one,
    is a list. *)
Definition mergeable (cfg : value) : Prop :=
  truthy cfg = true ->
  exists d, cfg = VDict d /\
    forall v, dict_get PROVENANCE d = Some v -> is_list v = true.

(** The top-level keys of a layer. *)
Definition layer_keys (cfg : value) : list string :=
  match cfg with
  | VDict d => keys d
  | _ => []
  end.

(** ** [evosuite.cli]: the [config] command *)

(** Line 31: the entries whose key does not start with an underscore, in
    their order. *)
Definition display_cfg (cfg : dict) : dict :=
  List.filter (fun e => negb (String.prefix "_" (fst e))) cfg.

(** The part of a layer that [config] can show. *)
Definition visible (cfg : value) : dict :=
  match cfg with
  | VDict d => display_cfg d
  | _ => []
  end.

Section Cli.

Variable json_loads : string -> parsed.
Variable yaml : option (string -> parsed).
Variable path_str : path -> string.
Variable path_of_string : string -> path.

(** Lines 24-34.  The command prints the provenance value when asked to
    ([cfg.get('_provenance', [])]) and then the JSON text of [display_cfg];
    the model returns the two values it prints.  An exception of
    [load_agent_os_config] leaves the command. *)
Definition config_command (h : host) (workspace : path) (show_provenance : bool)
  : result (option value * dict) :=
  cfg ← load_agent_os_config json_loads yaml path_str path_of_string h workspace;
  mret (if show_provenance
        then Some (match dict_get "_provenance" cfg with
                   | Some v => v
                   | None => VList []
                   end)
        else None,
        display_cfg cfg).

End Cli.

(** ** [evosuite.cli]: the [init] command *)

Inductive oserror : Type :=
| FileNotFoundError
| FileExistsError
| NotADirectoryError
| IsADirectoryError.

Inductive outcome (A : Type) : Type :=
| Done (a : A)
| Failed (e : oserror).

Arguments Done {A} a.
Arguments Failed {A} e.

Definition and_then {A B : Type} (m : outcome A) (f : A -> outcome B) : outcome B :=
  match m with
  | Done a => f a
  | Failed e => Failed e
  end.

(** Replace the entry of a directory listing, or add it. *)
Fixpoint set_child (name : string) (n : node) (children : list (string * node))
  : list (string * node) :=
  match children with
  | [] => [(name, n)]
  | (name', n') :: rest =>
      if String.eqb name name' then (name', n) :: rest
      else (name', n') :: set_child name n rest
  end.

(** The path resolution that [os.mkdir] and [open(..., "w")] share: walk down
    to the parent, which has to be a directory; at an entry that is there do
    [existing], else add [fresh]. *)
Fixpoint fs_put (existing : node -> outcome node) (fresh : node) (n : node) (p : path)
  : outcome node :=
  match p with
  | [] => existing n
  | name :: rest =>
      match n with
      | Dir children =>
          match child name children with
          | Some n' =>
              and_then (fs_put existing fresh n' rest)
                (fun n'' => Done (Dir (set_child name n'' children)))
          | None =>
              match rest with
              | [] => Done (Dir (children ++ [(name, fresh)]))
              | _ :: _ => Failed FileNotFoundError
              end
          end
      | _ => Failed NotADirectoryError
      end
  end.

(** [Path.mkdir(exist_ok=True)]: a directory that is there is left alone;
    anything else that is there makes it fail. *)
Definition fs_mkdir : node -> path -> outcome node :=
  fs_put (fun n => match n with Dir _ => Done n | _ => Failed FileExistsError end)
         (Dir []).

(** [Path.write_text(text)] *)
Definition fs_write_text (text : string) : node -> path -> outcome node :=
  fs_put (fun n => match n with Dir _ => Failed IsADirectoryError | _ => Done (File text) end)
         (File text).

Definition node_exists (fs : node) (p : path) : bool :=
  match fs_lookup fs p with Some _ => true | None => false end.

Definition newline : string := String "010"%char EmptyString.

(** Lines 54-60. *)
Definition CONFIG_CONTENT : string :=
  "# Agent OS Configuration" +:+ newline +:+
  "version: 1" +:+ newline +:+
  "logging:" +:+ newline +:+
  "  level: INFO" +:+ newline +:+
  "sampling:" +:+ newline +:+
  "  default_profile: deterministic_single" +:+ newline.

Definition INIT_SUBDIRS : list string := ["specs"; "tasks"; "standards"].

(** The loop of lines 48-49. *)
Fixpoint mkdir_each (fs : node) (dir_path : path) (names : list string) : outcome node :=
  match names with
  | [] => Done fs
  | name :: rest =>
      and_then (fs_mkdir fs (dir_path ++ [name]))
        (fun fs' => mkdir_each fs' dir_path rest)
  end.

(** Lines 45-61 as a function of the filesystem; the two messages the command
    prints are left out. *)
Definition init_command (fs : node) (workspace : path) : outcome node :=
  let agent_os_dir := workspace ++ [".agent-os"] in
  and_then (fs_mkdir fs agent_os_dir) (fun fs1 =>
  and_then (mkdir_each fs1 agent_os_dir INIT_SUBDIRS) (fun fs2 =>
  let config_file := agent_os_dir ++ ["config.yaml"] in
  if negb (node_exists fs2 config_file)
  then fs_write_text CONFIG_CONTENT fs2 config_file
  else Done fs2)).

(** The host after a command has changed its filesystem. *)
Definition with_fs (h : host) (fs : node) : host :=
  {| os_name := os_name h; sys_platform := sys_platform h; home := home h;
     module_dir := module_dir h; fs_root := fs; environ := environ h |}.

(** Two nodes of the same kind: directories both, or the same file. *)
Definition same_kind (x y : node) : Prop :=
  match x, y with
  | Dir _, Dir _ => True
  | _, _ => x = y
  end.

(** An entry that [mkdir(exist_ok=True)] accepts: absent, or a directory. *)
Definition free_or_dir (children : list (string * node)) (name : string) : Prop :=
  child name children = None \/ exists c, child name children = Some (Dir c).

(** ** Sample inputs of the commands *)



(** A workspace set up by hand with a JSON configuration. *)
Definition json_workspace : node :=
  Dir [("w", Dir [(".agent-os", Dir [("config.json", File debug_text)])])].

Definition json_workspace_after_init : node :=
  Dir [("w", Dir [(".agent-os",
         Dir [("config.json", File debug_text); ("specs", Dir []); ("tasks", Dir []);
              ("standards", Dir []); ("config.yaml", File CONFIG_CONTENT)])])].

(** ** [evosuite.agent_os.coordinator] *)

(** A value that can be a dictionary key or be looked up in one: lists and
    dicts cannot be hashed. *)
Definition hashable (v : value) : bool := negb (is_dict v || is_list v).

(** [step.get(key)], [None] when the key is missing. *)
Definition get_or_none (k : string) (d : dict) : value :=
  match dict_get k d with
  | Some v => v
  | None => VNull
  end.

(** Lines 39-49: the mock result of a step; the log line is left out. *)
Definition _execute_step (step : dict) : value :=
  VDict [("status", VStr "completed");
         ("agent", get_or_none "agent" step);
         ("action", get_or_none "action" step)].

(** What a [for] loop iterates over: the elements of a list, the characters
    of a string, the keys of a dict; nothing else can be iterated. *)
Definition iterate (v : value) : result (list value) :=
  match v with
  | VList l => Ok l
  | VStr s => Ok (map (fun c => VStr (String c EmptyString)) (list_ascii_of_string s))
  | VDict d => Ok (map (fun e => VStr (fst e)) d)
  | _ => Raise TypeError
  end.

Section Coordinator.

(** The agent instances are opaque to the coordinator. *)
Variable Agent : Type.

(** [==] between two hashable dictionary keys; between two strings it is
    equality of strings. *)
Variable key_eqb : value -> value -> bool.

Record coordinator : Type := {
  coordinator_config : value;
  agents : list (string * Agent);
  active_tasks : list string
}.

(** Lines 14-17: [config or {}]. *)
Definition new_coordinator (config : value) : coordinator :=
  {| coordinator_config := if truthy config then config else VDict [];
     agents := [];
     active_tasks := [] |}.

Fixpoint agents_set (name : string) (a : Agent) (l : list (string * Agent))
  : list (string * Agent) :=
  match l with
  | [] => [(name, a)]
  | (name', a') :: rest =>
      if String.eqb name name' then (name', a) :: rest
      else (name', a') :: agents_set name a rest
  end.

(** Lines 19-22. *)
Definition register_agent (c : coordinator) (name : string) (a : Agent) : coordinator :=
  {| coordinator_config := coordinator_config c;
     agents := agents_set name a (agents c);
     active_tasks := active_tasks c |}.

(** [agent_name in self.agents], for a hashable [agent_name]; the keys of
    [self.agents] are strings. *)
Definition registered (c : coordinator) (agent_name : value) : bool :=
  match agent_name with
  | VStr s => existsb (String.eqb s) (map fst (agents c))
  | _ => false
  end.

(** [results[key] = result] for a hashable key: a key equal to one that is
    there keeps the place and the key object of that one. *)
Fixpoint results_set (key result : value) (results : list (value * value))
  : list (value * value) :=
  match results with
  | [] => [(key, result)]
  | (key', result') :: rest =>
      if key_eqb key key' then (key', result) :: rest
      else (key', result') :: results_set key result rest
  end.

(** One iteration of the loop of line 28. *)
Definition run_step (c : coordinator) (results : list (value * value)) (step : value)
  : result (list (value * value)) :=
  match step with
  | VDict sd =>
      let agent_name := get_or_none "agent" sd in
      if negb (hashable agent_name) then Raise TypeError
      else if negb (registered c agent_name) then Raise ValueError
      else
        let result := _execute_step sd in
        let key := match dict_get "name" sd with
                   | Some v => v
                   | None => VStr ("step_" +:+ pretty (length results))
                   end in
        if hashable key then Ok (results_set key result results) else Raise TypeError
  | _ => Raise AttributeError
  end.

Fixpoint run_steps (c : coordinator) (results : list (value * value))
  (steps : list value) : result (list (value * value)) :=
  match steps with
  | [] => Ok results
  | step :: rest => results' ← run_step c results step; run_steps c results' rest
  end.

(** Lines 24-37. *)
Definition execute_workflow (c : coordinator) (workflow_spec : value)
  : result (list (value * value)) :=
  match workflow_spec with
  | VDict d =>
      steps ← iterate (match dict_get "steps" d with
                       | Some v => v
                       | None => VList []
                       end);
      run_steps c [] steps
  | _ => Raise AttributeError
  end.

(** A step that the loop accepts: a mapping whose agent is a registered
    name and whose name, if it has one, can be a key. *)
Definition runnable (c : coordinator) (step : value) : Prop :=
  exists sd,
    step = VDict sd /\
    registered c (get_or_none "agent" sd) = true /\
    match dict_get "name" sd with
    | Some v => hashable v = true
    | None => True
    end.

(** A step that names no registered agent. *)
Definition unknown_agent (c : coordinator) (step : value) : Prop :=
  exists sd,
    step = VDict sd /\
    hashable (get_or_none "agent" sd) = true /\
    registered c (get_or_none "agent" sd) = false.

End Coordinator.



(** Equality of keys on the values of this model that are strings, [None] or
    integers; used for the samples. *)
Definition sample_key_eqb (a b : value) : bool :=
  match a, b with
  | VStr s, VStr t => String.eqb s t
  | VNull, VNull => true
  | VInt n, VInt m => (n =? m)%Z
  | _, _ => false
  end.

Definition sample_coordinator : coordinator unit :=
  register_agent unit (register_agent unit (new_coordinator unit VNull) "planner" tt)
    "coder" tt.

Definition sample_workflow : value :=
  VDict [("steps", VList
    [VDict [("name", VStr "plan"); ("agent", VStr "planner"); ("action", VStr "outline")];
     VDict [("agent", VStr "coder"); ("action", VStr "write")];
     VDict [("name", VStr "plan"); ("agent", VStr "coder")]])].





Definition broken_workflow : dict :=
  [("steps", VList
     [VDict [("agent", VStr "planner")];
      VDict [("agent", VStr "tester")];
      VInt 3])].



(** * Properties *)

(** ** Structured values *)

Lemma value_nested_ind (P : value -> Prop) :
  P VNull -> (forall b, P (VBool b)) -> (forall n, P (VInt n)) ->
  (forall r, P (VFloat r)) -> (forall s, P (VStr s)) ->
  (forall l, Forall P l -> P (VList l)) ->
  (forall d, Forall (fun e => P (snd e)) d -> P (VDict d)) ->
  forall v, P v.
Proof.
  intros HN HB HI HF HS HL HD.
  fix IH 1.
  intros [ | b | n | r | s | l | d];
    [exact HN | apply HB | apply HI | apply HF | apply HS | apply HL | apply HD].
  - induction l as [|x l IHl]; constructor; [apply IH | exact IHl].
  - induction d as [|[k x] d IHd]; constructor; [apply IH | exact IHd].
Qed.

Lemma wf_dict_inv (d : dict) :
  wf (VDict d) -> NoDup (keys d) /\ Forall (fun e => wf (snd e)) d.
Proof.
  intros [Hnd Hall]. split; [exact Hnd|]. clear Hnd.
  induction d as [|[k x] d IHd]; constructor; [apply Hall | apply IHd, Hall].
Qed.

(** ** Dictionaries *)

Ltac case_eqb :=
  repeat match goal with
    | |- context [String.eqb ?a ?b] => destruct (String.eqb_spec a b); subst
    | H : context [String.eqb ?a ?b] |- _ => destruct (String.eqb_spec a b); subst
    end.

Lemma dict_get_set_eq (k : string) (v : value) (d : dict) :
  dict_get k (dict_set k v d) = Some v.
Proof.
  induction d as [|[k' v'] d IH]; simpl; case_eqb; simpl; case_eqb; congruence.
Qed.

Lemma dict_get_set_ne (k k' : string) (v : value) (d : dict) :
  k <> k' -> dict_get k' (dict_set k v d) = dict_get k' d.
Proof.
  intros Hne. induction d as [|[k0 v0] d IH]; simpl; case_eqb; simpl; case_eqb;
    congruence.
Qed.

Lemma dict_set_id (k : string) (v : value) (d : dict) :
  dict_get k d = Some v -> dict_set k v d = d.
Proof.
  induction d as [|[k' v'] d IH]; simpl; [discriminate|].
  case_eqb; intros H; [congruence | by rewrite IH].
Qed.

Lemma dict_get_None (k : string) (d : dict) :
  dict_get k d = None <-> k ∉ keys d.
Proof.
  induction d as [|[k' v'] d IH]; simpl.
  - split; [intros _; apply not_elem_of_nil | done].
  - rewrite not_elem_of_cons. case_eqb; simpl.
    + split; [discriminate | intros [? _]; done].
    + rewrite IH. tauto.
Qed.

Lemma dict_get_Some_elem (k : string) (v : value) (d : dict) :
  dict_get k d = Some v -> (k, v) ∈ d.
Proof.
  induction d as [|[k' v'] d IH]; simpl; [discriminate|].
  case_eqb; intros H.
  - injection H as ->. apply list_elem_of_here.
  - apply list_elem_of_further. auto.
Qed.

Lemma elem_keys (k : string) (v : value) (d : dict) : (k, v) ∈ d -> k ∈ keys d.
Proof. intros H. apply (list_elem_of_fmap_2 fst) in H. exact H. Qed.

Lemma dict_get_elem (k : string) (v : value) (d : dict) :
  NoDup (keys d) -> (k, v) ∈ d -> dict_get k d = Some v.
Proof.
  induction d as [|[k' v'] d IH]; simpl; intros Hnd Hin.
  - by apply elem_of_nil in Hin.
  - apply NoDup_cons in Hnd as [Hk Hnd].
    apply elem_of_cons in Hin as [Heq | Hin].
    + injection Heq as -> ->. by rewrite String.eqb_refl.
    + case_eqb; [|auto]. exfalso. apply Hk. eapply elem_keys; eauto.
Qed.

Lemma keys_dict_set (k : string) (v : value) (d : dict) :
  keys (dict_set k v d) =
  match dict_get k d with Some _ => keys d | None => keys d ++ [k] end.
Proof.
  induction d as [|[k' v'] d IH]; simpl; [done|].
  case_eqb; simpl; [done|]. rewrite IH. by destruct (dict_get k d).
Qed.

Lemma keys_unique_dict_set (k : string) (v : value) (d : dict) :
  NoDup (keys d) -> NoDup (keys (dict_set k v d)).
Proof.
  intros Hnd. rewrite keys_dict_set.
  destruct (dict_get k d) eqn:E; [done|].
  apply NoDup_app. split_and!; [done | | apply NoDup_singleton].
  intros x Hx Hx'. apply list_elem_of_singleton in Hx'. subst.
  by apply dict_get_None in E.
Qed.

(** ** Deep merge *)

Lemma deep_merge_nil (base : dict) : _deep_merge base [] = base.
Proof. reflexivity. Qed.

Lemma deep_merge_cons (base : dict) (k : string) (v : value) (rest : dict) :
  _deep_merge base ((k, v) :: rest) =
  _deep_merge (dict_set k (merged_value (dict_get k base) v) base) rest.
Proof.
  unfold _deep_merge. simpl. f_equal.
  unfold merge_item, merged_value.
  destruct (dict_get k base) as [[]|]; destruct v; reflexivity.
Qed.

Lemma deep_merge_get_other (k : string) (base incoming : dict) :
  k ∉ keys incoming ->
  dict_get k (_deep_merge base incoming) = dict_get k base.
Proof.
  revert base. induction incoming as [|[k' v'] rest IH]; intros base Hk.
  - reflexivity.
  - simpl in Hk. apply not_elem_of_cons in Hk as [Hne Hk].
    rewrite deep_merge_cons, IH by done. by apply dict_get_set_ne.
Qed.

Lemma deep_merge_get_elem (k : string) (v : value) (base incoming : dict) :
  NoDup (keys incoming) -> (k, v) ∈ incoming ->
  dict_get k (_deep_merge base incoming) = Some (merged_value (dict_get k base) v).
Proof.
  revert base. induction incoming as [|[k' v'] rest IH]; intros base Hnd Hin.
  - by apply elem_of_nil in Hin.
  - simpl in Hnd. apply NoDup_cons in Hnd as [Hk Hnd].
    rewrite deep_merge_cons.
    apply elem_of_cons in Hin as [Heq | Hin].
    + injection Heq as -> ->.
      rewrite deep_merge_get_other by done. apply dict_get_set_eq.
    + rewrite IH by done. rewrite dict_get_set_ne; [done|].
      intros ->. apply Hk. eapply elem_keys; eauto.
Qed.

(** A merge that finds every incoming value already in place changes
    nothing. *)
Lemma deep_merge_fixed (base incoming : dict) :
  (forall k v, (k, v) ∈ incoming ->
     exists old, dict_get k base = Some old /\ merged_value (Some old) v = old) ->
  _deep_merge base incoming = base.
Proof.
  induction incoming as [|[k v] rest IH]; intros H; [reflexivity|].
  rewrite deep_merge_cons.
  destruct (H k v) as (old & Hget & Hold); [apply list_elem_of_here|].
  rewrite Hget, Hold, (dict_set_id _ _ _ Hget).
  apply IH. intros k' v' Hin. apply H. by apply list_elem_of_further.
Qed.

(** ** List union *)

Lemma append_unique_app (existing : gset string) (b i : list value) :
  append_unique existing b i = b ++ append_unique existing [] i.
Proof.
  revert existing b. induction i as [|x i IH]; intros existing b; simpl.
  - by rewrite app_nil_r.
  - case_decide; [apply IH|].
    rewrite (IH _ (b ++ [x])), (IH _ [x]). by rewrite <- app_assoc.
Qed.

Lemma append_unique_none (existing : gset string) (b i : list value) :
  (forall x, x ∈ i -> json_dumps_sorted x ∈ existing) ->
  append_unique existing b i = b.
Proof.
  induction i as [|x i IH]; intros H; simpl; [done|].
  case_decide as Hx.
  - apply IH. intros y Hy. apply H. by apply list_elem_of_further.
  - exfalso. apply Hx, H, list_elem_of_here.
Qed.

Lemma append_unique_encodings (existing : gset string) (i : list value) (e : string) :
  e ∈ map json_dumps_sorted (append_unique existing [] i) <->
  e ∈ map json_dumps_sorted i /\ e ∉ existing.
Proof.
  revert existing. induction i as [|x i IH]; intros existing; simpl.
  - split; [intros H; by apply elem_of_nil in H | intros [H _]; by apply elem_of_nil in H].
  - case_decide as Hx.
    + rewrite IH, elem_of_cons. split; [tauto|].
      intros [[-> | H] Hn]; [done | tauto].
    + rewrite (append_unique_app _ [x]). simpl.
      rewrite !elem_of_cons, IH, elem_of_union, elem_of_singleton.
      destruct (decide (e = json_dumps_sorted x)) as [-> | Hne]; tauto.
Qed.

Lemma append_unique_NoDup (existing : gset string) (i : list value) :
  NoDup (map json_dumps_sorted (append_unique existing [] i)).
Proof.
  revert existing. induction i as [|x i IH]; intros existing; simpl.
  - apply NoDup_nil_2.
  - case_decide as Hx; [apply IH|].
    rewrite (append_unique_app _ [x]). simpl. apply NoDup_cons. split; [|apply IH].
    rewrite append_unique_encodings, elem_of_union, elem_of_singleton. tauto.
Qed.

Lemma append_unique_sublist (existing : gset string) (i : list value) :
  sublist (append_unique existing [] i) i.
Proof.
  revert existing. induction i as [|x i IH]; intros existing; simpl.
  - apply sublist_nil.
  - case_decide as Hx; [apply sublist_cons, IH|].
    rewrite (append_unique_app _ [x]). simpl. apply sublist_skip, IH.
Qed.

Lemma append_unique_fresh_items (seen : list string) (i : list value) :
  append_unique (list_to_set seen) [] i = fresh_items seen i.
Proof.
  revert seen. induction i as [|x i IH]; intros seen; simpl; [done|].
  destruct (decide (json_dumps_sorted x ∈ seen)) as [Hin | Hout].
  - rewrite decide_True by (by apply elem_of_list_to_set). apply IH.
  - rewrite decide_False by (by rewrite elem_of_list_to_set).
    rewrite (append_unique_app _ [x]). simpl. f_equal.
    apply (IH (json_dumps_sorted x :: seen)).
Qed.

Lemma merge_lists_covers (b i : list value) (x : value) :
  x ∈ i -> json_dumps_sorted x ∈ map json_dumps_sorted (merge_lists b i).
Proof.
  intros Hx. unfold merge_lists. rewrite append_unique_app, map_app, elem_of_app.
  destruct (decide (json_dumps_sorted x ∈ map json_dumps_sorted b)) as [|Hn]; [by left|].
  right. apply append_unique_encodings. split.
  - by apply (list_elem_of_fmap_2 json_dumps_sorted).
  - by rewrite elem_of_list_to_set.
Qed.

Lemma merge_lists_covered (b i : list value) :
  (forall x, x ∈ i -> json_dumps_sorted x ∈ map json_dumps_sorted b) ->
  merge_lists b i = b.
Proof.
  intros H. apply append_unique_none. intros x Hx.
  apply elem_of_list_to_set. auto.
Qed.

Lemma merge_lists_again (b i : list value) :
  merge_lists (merge_lists b i) i = merge_lists b i.
Proof. apply merge_lists_covered. intros x. apply merge_lists_covers. Qed.

Lemma merge_lists_self (l : list value) : merge_lists l l = l.
Proof.
  apply merge_lists_covered. intros x.
  apply (list_elem_of_fmap_2 json_dumps_sorted).
Qed.

(** ** Idempotence of the merge *)

Lemma merged_value_scalar (old : option value) (v : value) :
  is_scalar v = true -> merged_value old v = v.
Proof. destruct old as [[]|], v; simpl; done. Qed.

(** Merging [v] over the value that a merge of [v] left, and over [v] itself,
    changes nothing. *)
Lemma merged_value_stable (v : value) :
  wf v ->
  (forall old, merged_value (Some (merged_value old v)) v = merged_value old v) /\
  merged_value (Some v) v = v.
Proof.
  induction v as [ | b | n | r | s | l IH | d IH] using value_nested_ind; intros Hwf;
    try (split; [intros [[]|] |]; reflexivity).
  - split; [intros [[]|] |]; simpl; by rewrite ?merge_lists_again, ?merge_lists_self.
  - apply wf_dict_inv in Hwf as [Hnd Hall].
    assert (Hsub : forall k x, (k, x) ∈ d ->
      (forall old, merged_value (Some (merged_value old x)) x = merged_value old x) /\
      merged_value (Some x) x = x).
    { intros k x Hin. rewrite Forall_forall in IH, Hall.
      apply (IH (k, x) Hin), (Hall (k, x) Hin). }
    assert (Hagain : forall b, _deep_merge (_deep_merge b d) d = _deep_merge b d).
    { intros b. apply deep_merge_fixed. intros k x Hin.
      exists (merged_value (dict_get k b) x). split.
      - by apply deep_merge_get_elem.
      - apply (Hsub k x Hin). }
    assert (Hself : _deep_merge d d = d).
    { apply deep_merge_fixed. intros k x Hin. exists x. split.
      - by apply dict_get_elem.
      - apply (Hsub k x Hin). }
    split; [intros [[]|] |]; simpl; by rewrite ?Hagain, ?Hself.
Qed.

(** C10.  Deep merge is idempotent in its incoming argument: for every
    mapping [base] and every mapping [incoming] (a Python dict: no key twice,
    at any depth), merging [incoming] a second time into the merged result
    changes nothing. *)
Theorem deep_merge_idempotent (base incoming : dict) :
  wf (VDict incoming) ->
  _deep_merge (_deep_merge base incoming) incoming = _deep_merge base incoming.
Proof.
  intros Hwf.
  pose proof (proj1 (merged_value_stable (VDict incoming) Hwf) (Some (VDict base))) as H.
  simpl in H. by injection H.
Qed.

(** ** List union under a key *)

(** C8.  When [base] and [incoming] both hold a list under [k], the merged
    list is the base list, unchanged and in place, followed by [appended]:
    elements of the incoming list in the incoming order, none encoded like a
    base element, no two encoded alike, and together with the base list
    covering the encoding of every incoming element.  When every incoming
    element is encoded like some base element, nothing is appended.  The
    appended elements are those the specification's rule selects. *)
Theorem merge_lists_append_unique (base incoming : dict) (k : string)
  (b i : list value) :
  NoDup (keys incoming) ->
  dict_get k base = Some (VList b) ->
  dict_get k incoming = Some (VList i) ->
  exists appended,
    dict_get k (_deep_merge base incoming) = Some (VList (b ++ appended)) /\
    sublist appended i /\
    (forall x, x ∈ appended ->
       json_dumps_sorted x ∉ map json_dumps_sorted b) /\
    NoDup (map json_dumps_sorted appended) /\
    (forall x, x ∈ i ->
       json_dumps_sorted x ∈ map json_dumps_sorted (b ++ appended)) /\
    ((forall x, x ∈ i -> json_dumps_sorted x ∈ map json_dumps_sorted b) ->
     appended = []) /\
    appended = fresh_items (map json_dumps_sorted b) i.
Proof.
  intros Hnd Hb Hi.
  set (existing := list_to_set (map json_dumps_sorted b) : gset string).
  exists (append_unique existing [] i).
  assert (Hm : merge_lists b i = b ++ append_unique existing [] i)
    by apply append_unique_app.
  split_and!.
  - rewrite (deep_merge_get_elem k (VList i)), Hb; [|done|by apply dict_get_Some_elem].
    simpl. by rewrite Hm.
  - apply append_unique_sublist.
  - intros x Hx Hin.
    apply (list_elem_of_fmap_2 json_dumps_sorted) in Hx.
    apply append_unique_encodings in Hx as [_ Hx].
    apply Hx. by apply elem_of_list_to_set.
  - apply append_unique_NoDup.
  - intros x Hx. rewrite <- Hm. by apply merge_lists_covers.
  - intros Hall. apply (append_unique_none existing [] i).
    intros x Hx. apply elem_of_list_to_set. auto.
  - apply append_unique_fresh_items.
Qed.

(** ** Layer loading and the orchestrator *)

Section Resolution.

Variable json_loads : string -> parsed.
Variable yaml : option (string -> parsed).
Variable path_str : path -> string.
Variable path_of_string : string -> path.

Local Abbreviation load_file := (_load_file json_loads yaml path_str).
Local Abbreviation collect := (_collect_layer_config json_loads yaml path_str).
Local Abbreviation overrides := (_env_overrides json_loads).
Local Abbreviation user_root := (_platform_user_config_root path_of_string).
Local Abbreviation load := (load_agent_os_config json_loads yaml path_str path_of_string).

(** *** Candidate files *)

Lemma fs_lookup_missing_dir (n : node) (dir_path : path) (name : string) :
  fs_lookup n dir_path = None -> fs_lookup n (dir_path ++ [name]) = None.
Proof.
  revert n. induction dir_path as [|c rest IH]; intros n; simpl; [discriminate|].
  destruct n as [ | |children]; try done.
  destruct (child c children); [apply IH | done].
Qed.

Lemma path_exists_missing_dir (h : host) (dir_path : path) (name : string) :
  fs_lookup (fs_root h) dir_path = None -> path_exists h (dir_path ++ [name]) = false.
Proof. intros H. unfold path_exists. by rewrite fs_lookup_missing_dir. Qed.

(** [_load_file] looks at nothing but the file it is given. *)
Lemma load_file_local (h h' : host) (p : path) :
  fs_lookup (fs_root h') p = fs_lookup (fs_root h) p ->
  load_file h' p = load_file h p.
Proof.
  intros H. unfold _load_file, parse_file, read_text, path_exists. by rewrite H.
Qed.

Lemma collect_first_existing (h : host) (dir_path : path) :
  collect h dir_path =
  match first_existing h dir_path with
  | Some name => load_file h (dir_path ++ [name])
  | None => VDict []
  end.
Proof.
  unfold _collect_layer_config, first_existing.
  induction CONFIG_FILENAMES as [|name rest IH]; simpl; [done|].
  by destruct (path_exists h (dir_path ++ [name])).
Qed.

(** C9.  [_collect_layer_config] returns what [_load_file] gives for
    [config.yaml] when it exists, else for [config.yml] when it exists, else
    for [config.json] when it exists; it returns an empty mapping when no
    candidate exists, in particular when the directory does not; and two
    hosts that agree on the first candidate present give the same result,
    whatever the later candidates hold. *)
Theorem collect_first_match_wins (h : host) (dir_path : path) :
  (path_exists h (dir_path ++ ["config.yaml"]) = true ->
   collect h dir_path = load_file h (dir_path ++ ["config.yaml"])) /\
  (path_exists h (dir_path ++ ["config.yaml"]) = false ->
   path_exists h (dir_path ++ ["config.yml"]) = true ->
   collect h dir_path = load_file h (dir_path ++ ["config.yml"])) /\
  (path_exists h (dir_path ++ ["config.yaml"]) = false ->
   path_exists h (dir_path ++ ["config.yml"]) = false ->
   path_exists h (dir_path ++ ["config.json"]) = true ->
   collect h dir_path = load_file h (dir_path ++ ["config.json"])) /\
  (path_exists h (dir_path ++ ["config.yaml"]) = false ->
   path_exists h (dir_path ++ ["config.yml"]) = false ->
   path_exists h (dir_path ++ ["config.json"]) = false ->
   collect h dir_path = VDict []) /\
  (fs_lookup (fs_root h) dir_path = None -> collect h dir_path = VDict []) /\
  (forall (h' : host) (name : string),
     first_existing h dir_path = Some name ->
     first_existing h' dir_path = Some name ->
     fs_lookup (fs_root h') (dir_path ++ [name]) =
       fs_lookup (fs_root h) (dir_path ++ [name]) ->
     collect h' dir_path = collect h dir_path).
Proof.
  split_and!.
  - intros H1. unfold _collect_layer_config. simpl. by rewrite H1.
  - intros H1 H2. unfold _collect_layer_config. simpl. by rewrite H1, H2.
  - intros H1 H2 H3. unfold _collect_layer_config. simpl. by rewrite H1, H2, H3.
  - intros H1 H2 H3. unfold _collect_layer_config. simpl. by rewrite H1, H2, H3.
  - intros H. unfold _collect_layer_config. simpl.
    by rewrite !path_exists_missing_dir.
  - intros h' name H H' Hfs. rewrite !collect_first_existing, H, H'.
    by apply load_file_local.
Qed.

(** *** One layer *)

Lemma apply_layer_Ok (cfg : value) (label : string) (merged m' : dict) :
  apply_layer cfg label merged = Ok m' ->
  (truthy cfg = false /\ m' = merged) \/
  (exists d l,
     truthy cfg = true /\ cfg = VDict d /\
     dict_get PROVENANCE (_deep_merge merged d) = Some (VList l) /\
     m' = dict_set PROVENANCE (VList (l ++ [VStr label])) (_deep_merge merged d)).
Proof.
  unfold apply_layer. destruct (truthy cfg) eqn:Ht.
  - intros H. right. destruct cfg as [ | | | | | |d]; try discriminate H.
    simpl in H. unfold provenance_append in H.
    destruct (dict_get PROVENANCE (_deep_merge merged d)) as [[ | | | | |l| ]|] eqn:Hp;
      try discriminate H.
    exists d, l. split_and!; try done. by injection H.
  - intros H. left. split; [done | by injection H].
Qed.

Lemma layer_get_truthy (k : string) (cfg v : value) :
  layer_get k cfg = Some v -> truthy cfg = true.
Proof. destruct cfg as [ | | | | | |[|]]; simpl; done. Qed.

(** A layer that sets a key to a scalar leaves that scalar in the
    accumulator; the reserved key cannot be set this way and the call
    still return. *)
Lemma apply_layer_sets (cfg : value) (label : string) (merged m' : dict)
  (k : string) (s : value) :
  apply_layer cfg label merged = Ok m' ->
  keys_unique cfg ->
  layer_get k cfg = Some s ->
  is_scalar s = true ->
  dict_get k m' = Some s /\ k <> PROVENANCE.
Proof.
  intros Hok Hu Hk Hs.
  apply apply_layer_Ok in Hok as [[Ht _] | (d & l & _ & -> & Hp & ->)].
  - apply layer_get_truthy in Hk. congruence.
  - simpl in Hu, Hk.
    assert (Hm : dict_get k (_deep_merge merged d) = Some s).
    { rewrite (deep_merge_get_elem k s); [|done|by apply dict_get_Some_elem].
      by rewrite merged_value_scalar. }
    assert (Hne : k <> PROVENANCE).
    { intros ->. rewrite Hp in Hm. injection Hm as <-. discriminate Hs. }
    split; [|done]. rewrite dict_get_set_ne; done.
Qed.

(** A layer that does not set a key leaves the accumulator's value for
    it, the reserved key apart. *)
Lemma apply_layer_keeps (cfg : value) (label : string) (merged m' : dict)
  (k : string) :
  apply_layer cfg label merged = Ok m' ->
  layer_get k cfg = None ->
  k <> PROVENANCE ->
  dict_get k m' = dict_get k merged.
Proof.
  intros Hok Hk Hne.
  apply apply_layer_Ok in Hok as [[_ ->] | (d & l & _ & -> & Hp & ->)]; [done|].
  simpl in Hk. rewrite dict_get_set_ne by done.
  apply deep_merge_get_other. by apply dict_get_None.
Qed.

(** The provenance list after a layer that is empty or a mapping without
    the reserved key. *)
Lemma apply_layer_unreserved (cfg : value) (label : string) (merged : dict)
  (l : list value) :
  unreserved cfg ->
  dict_get PROVENANCE merged = Some (VList l) ->
  exists m',
    apply_layer cfg label merged = Ok m' /\
    dict_get PROVENANCE m' =
      Some (VList (l ++ if truthy cfg then [VStr label] else [])).
Proof.
  intros Hu Hp. unfold apply_layer. destruct (truthy cfg) eqn:Ht.
  - destruct (Hu Ht) as [Hd Hk].
    destruct cfg as [ | | | | | |d]; try discriminate Hd. simpl in Hk |- *.
    unfold provenance_append.
    rewrite deep_merge_get_other, Hp by (by apply dict_get_None).
    eexists. split; [reflexivity|]. apply dict_get_set_eq.
  - exists merged. by rewrite app_nil_r.
Qed.

(** A layer for which [apply_layer] returns is empty or a mapping. *)
Lemma apply_layer_Ok_unreserved (cfg : value) (label : string) (merged m' : dict) :
  apply_layer cfg label merged = Ok m' ->
  layer_get PROVENANCE cfg = None ->
  unreserved cfg.
Proof.
  intros Hok Hk Ht.
  apply apply_layer_Ok in Hok as [[Hf _] | (d & l & _ & -> & _)]; [congruence | done].
Qed.

(** *** Environment overrides *)

Lemma env_loop_no_prefix (table : list (string * string)) (ov : value) :
  (forall e, e ∈ table -> String.prefix PREFIX (fst e) = false) ->
  env_loop json_loads table ov = Ok ov.
Proof.
  induction table as [|[key raw] rest IH]; intros H; simpl; [done|].
  pose proof (H (key, raw) (list_elem_of_here _ _)) as Hk. simpl in Hk.
  unfold env_step. rewrite Hk. simpl.
  apply IH. intros e He. apply H. by apply list_elem_of_further.
Qed.

Lemma descend_top_level (parts : list string) (finish : value -> result value)
  (d : dict) (v : value) :
  (forall d' v', finish (VDict d') = Ok v' ->
     exists leaf c, v' = VDict (dict_set leaf c d')) ->
  descend parts finish (VDict d) = Ok v ->
  exists key x, v = VDict (dict_set key x d).
Proof.
  intros Hfinish. destruct parts as [|p rest]; simpl; [apply Hfinish|].
  destruct (descend rest finish _) as [inner'|]; simpl; [|discriminate].
  intros H. injection H as <-. eauto.
Qed.

Lemma env_step_keys_unique (d : dict) (entry : string * string) (v : value) :
  env_step json_loads (VDict d) entry = Ok v ->
  NoDup (keys d) ->
  exists d', v = VDict d' /\ NoDup (keys d').
Proof.
  destruct entry as [key raw]. unfold env_step.
  destruct (negb (String.prefix PREFIX key)).
  - intros H Hnd. injection H as <-. eauto.
  - intros H Hnd. apply descend_top_level in H as (a & x & ->).
    + eexists. split; [reflexivity|]. by apply keys_unique_dict_set.
    + intros d' v'. destruct (coerce json_loads raw) as [c|]; simpl; [|discriminate].
      intros Hv. injection Hv as <-. eauto.
Qed.

Lemma env_loop_keys_unique (table : list (string * string)) (d : dict) (E : value) :
  env_loop json_loads table (VDict d) = Ok E ->
  NoDup (keys d) ->
  keys_unique E.
Proof.
  revert d. induction table as [|entry rest IH]; intros d; simpl.
  - intros H Hnd. by injection H as <-.
  - destruct (env_step json_loads (VDict d) entry) as [v|] eqn:Hstep; simpl;
      [|discriminate].
    intros H Hnd. apply env_step_keys_unique in Hstep as (d' & -> & Hnd'); [|done].
    by apply (IH d').
Qed.

Lemma overrides_keys_unique (h : host) (E : value) :
  overrides h = Ok E -> keys_unique E.
Proof. intros H. apply (env_loop_keys_unique _ [] E H). apply NoDup_nil_2. Qed.

(** *** The four layers *)

Lemma load_Ok (h : host) (root : path) (m : dict) :
  load h root = Ok m ->
  exists m1 m2 m3 E,
    apply_layer (collect h (pkg_defaults_dir h)) "package" [(PROVENANCE, VList [])]
      = Ok m1 /\
    apply_layer (collect h (user_root h)) (path_str (user_root h)) m1 = Ok m2 /\
    apply_layer (collect h (ws_dir root)) (path_str (ws_dir root)) m2 = Ok m3 /\
    overrides h = Ok E /\
    apply_layer E "env" m3 = Ok m.
Proof.
  intros H. unfold load_agent_os_config in H. cbv zeta in H.
  destruct (apply_layer (collect h (pkg_defaults_dir h)) _ _) as [m1|] eqn:H1;
    simpl in H; [|discriminate].
  destruct (apply_layer (collect h (user_root h)) _ m1) as [m2|] eqn:H2;
    simpl in H; [|discriminate].
  destruct (apply_layer (collect h (ws_dir root)) _ m2) as [m3|] eqn:H3;
    simpl in H; [|discriminate].
  destruct (overrides h) as [E|] eqn:HE; simpl in H; [|discriminate].
  destruct (apply_layer E "env" m3) as [m4|] eqn:H4; simpl in H; [|discriminate].
  injection H as <-. exists m1, m2, m3, E. done.
Qed.

(** For the values modelled here: when no layer touches the reserved key,
    the call returns and the provenance list names the non-empty layers in
    application order. *)
Lemma load_unreserved (h : host) (root : path) (E : value) :
  overrides h = Ok E ->
  unreserved (collect h (pkg_defaults_dir h)) ->
  unreserved (collect h (user_root h)) ->
  unreserved (collect h (ws_dir root)) ->
  unreserved E ->
  exists m,
    load h root = Ok m /\
    dict_get PROVENANCE m =
      Some (VList (contributors
        [(collect h (pkg_defaults_dir h), "package");
         (collect h (user_root h), path_str (user_root h));
         (collect h (ws_dir root), path_str (ws_dir root));
         (E, "env")])).
Proof.
  intros HE Hp Hu Hw He.
  destruct (apply_layer_unreserved _ "package" [(PROVENANCE, VList [])] [] Hp eq_refl)
    as (m1 & H1 & P1).
  destruct (apply_layer_unreserved _ (path_str (user_root h)) m1 _ Hu P1)
    as (m2 & H2 & P2).
  destruct (apply_layer_unreserved _ (path_str (ws_dir root)) m2 _ Hw P2)
    as (m3 & H3 & P3).
  destruct (apply_layer_unreserved _ "env" m3 _ He P3) as (m4 & H4 & P4).
  exists m4. split.
  - unfold load_agent_os_config. cbv zeta. rewrite H1. simpl. rewrite H2. simpl.
    rewrite H3. simpl. rewrite HE. simpl. rewrite H4. reflexivity.
  - rewrite P4. simpl. by rewrite app_nil_r, <- !app_assoc.
Qed.

(** C1.  Whenever [load_agent_os_config] returns a mapping, a key whose
    highest-precedence setting (env over workspace over user over package)
    is a scalar holds that scalar in the returned mapping, whatever the
    lower layers set for it.  The file layers are Python dicts: no key
    twice. *)
Theorem precedence_highest_layer_wins (h : host) (root : path) (m : dict)
  (E : value) (k : string) (s : value) :
  load h root = Ok m ->
  overrides h = Ok E ->
  keys_unique (collect h (pkg_defaults_dir h)) ->
  keys_unique (collect h (user_root h)) ->
  keys_unique (collect h (ws_dir root)) ->
  highest_setting k
    [E; collect h (ws_dir root); collect h (user_root h);
     collect h (pkg_defaults_dir h)] = Some s ->
  is_scalar s = true ->
  dict_get k m = Some s.
Proof.
  intros Hload HE Hp Hu Hw Hhigh Hs.
  apply load_Ok in Hload as (m1 & m2 & m3 & E' & H1 & H2 & H3 & HE' & H4).
  rewrite HE in HE'. injection HE' as <-.
  pose proof (overrides_keys_unique h E HE) as He.
  simpl in Hhigh.
  destruct (layer_get k E) as [s4|] eqn:K4.
  { injection Hhigh as ->. by apply (apply_layer_sets _ _ _ _ _ _ H4). }
  destruct (layer_get k (collect h (ws_dir root))) as [s3|] eqn:K3.
  { injection Hhigh as ->.
    destruct (apply_layer_sets _ _ _ _ _ _ H3 Hw K3 Hs) as [G3 Hne].
    by rewrite (apply_layer_keeps _ _ _ _ _ H4 K4 Hne). }
  destruct (layer_get k (collect h (user_root h))) as [s2|] eqn:K2.
  { injection Hhigh as ->.
    destruct (apply_layer_sets _ _ _ _ _ _ H2 Hu K2 Hs) as [G2 Hne].
    by rewrite (apply_layer_keeps _ _ _ _ _ H4 K4 Hne),
               (apply_layer_keeps _ _ _ _ _ H3 K3 Hne). }
  destruct (layer_get k (collect h (pkg_defaults_dir h))) as [s1|] eqn:K1;
    [|discriminate].
  injection Hhigh as ->.
  destruct (apply_layer_sets _ _ _ _ _ _ H1 Hp K1 Hs) as [G1 Hne].
  by rewrite (apply_layer_keeps _ _ _ _ _ H4 K4 Hne),
             (apply_layer_keeps _ _ _ _ _ H3 K3 Hne),
             (apply_layer_keeps _ _ _ _ _ H2 K2 Hne).
Qed.

(** C4, amended.  Whenever [load_agent_os_config] returns and no loaded
    layer has the reserved key at its top level, the provenance list of the
    returned mapping holds exactly the identifiers of the non-empty layers
    ([package], the user directory, the workspace directory, [env]), in
    application order; an empty layer contributes no entry. *)
Theorem provenance_lists_nonempty_layers (h : host) (root : path) (m : dict)
  (E : value) :
  load h root = Ok m ->
  overrides h = Ok E ->
  layer_get PROVENANCE (collect h (pkg_defaults_dir h)) = None ->
  layer_get PROVENANCE (collect h (user_root h)) = None ->
  layer_get PROVENANCE (collect h (ws_dir root)) = None ->
  layer_get PROVENANCE E = None ->
  dict_get PROVENANCE m =
    Some (VList (contributors
      [(collect h (pkg_defaults_dir h), "package");
       (collect h (user_root h), path_str (user_root h));
       (collect h (ws_dir root), path_str (ws_dir root));
       (E, "env")])).
Proof.
  intros Hload HE Kp Ku Kw Ke.
  pose proof Hload as Hinv.
  apply load_Ok in Hinv as (m1 & m2 & m3 & E' & H1 & H2 & H3 & HE' & H4).
  rewrite HE in HE'. injection HE' as <-.
  destruct (load_unreserved h root E HE) as (m' & Hm' & Hprov);
    eauto using apply_layer_Ok_unreserved.
  rewrite Hload in Hm'. by injection Hm' as <-.
Qed.

(** C6, amended.  When no loaded layer has the reserved key at its top
    level, the provenance value of a returned mapping is a list of
    engine-written layer identifiers only. *)
Theorem provenance_engine_written (h : host) (root : path) (m : dict) (E : value) :
  load h root = Ok m ->
  overrides h = Ok E ->
  layer_get PROVENANCE (collect h (pkg_defaults_dir h)) = None ->
  layer_get PROVENANCE (collect h (user_root h)) = None ->
  layer_get PROVENANCE (collect h (ws_dir root)) = None ->
  layer_get PROVENANCE E = None ->
  exists l,
    dict_get PROVENANCE m = Some (VList l) /\
    Forall (fun x => x ∈ [VStr "package"; VStr (path_str (user_root h));
                          VStr (path_str (ws_dir root)); VStr "env"]) l.
Proof.
  intros Hload HE Kp Ku Kw Ke.
  pose proof Hload as Hinv.
  apply load_Ok in Hinv as (m1 & m2 & m3 & E' & H1 & H2 & H3 & HE' & H4).
  rewrite HE in HE'. injection HE' as <-.
  destruct (load_unreserved h root E HE) as (m' & Hm' & Hprov);
    eauto using apply_layer_Ok_unreserved.
  rewrite Hload in Hm'. injection Hm' as <-.
  eexists. split; [exact Hprov|]. simpl.
  repeat match goal with |- context [truthy ?c] => destruct (truthy c) end;
    simpl; repeat constructor.
Qed.

(** C5, amended.  When the three file layers load as empty mappings and no
    environment variable carries the prefix, [load_agent_os_config] returns
    the mapping that holds the reserved key alone, with an empty list. *)
Theorem empty_layers_keep_provenance_key (h : host) (root : path) :
  collect h (pkg_defaults_dir h) = VDict [] ->
  collect h (user_root h) = VDict [] ->
  collect h (ws_dir root) = VDict [] ->
  (forall e, e ∈ environ h -> String.prefix PREFIX (fst e) = false) ->
  load h root = Ok [(PROVENANCE, VList [])].
Proof.
  intros Hp Hu Hw He. unfold load_agent_os_config, _env_overrides. cbv zeta.
  rewrite Hp, Hu, Hw, (env_loop_no_prefix _ _ He). reflexivity.
Qed.

End Resolution.

(** ** Coercion and placement of environment values *)

Section Overrides.

Variable json_loads : string -> parsed.

(** The ordered fallback of lines 103-111, branch by branch. *)
Lemma coerce_decimal (raw : string) :
  isdigit raw = true -> string_forall is_decimal_char raw = true ->
  (String.length raw <= MAX_STR_DIGITS)%nat ->
  coerce json_loads raw = Ok (VInt (decimal_value 0 raw)).
Proof.
  intros Hd Hdec Hlen. apply Nat.leb_le in Hlen.
  unfold coerce, int_of_string. by rewrite Hd, Hdec, Hlen.
Qed.

Lemma coerce_other_digit (raw : string) :
  isdigit raw = true -> string_forall is_decimal_char raw = false ->
  coerce json_loads raw = Raise ValueError.
Proof. intros Hd Hdec. unfold coerce, int_of_string. by rewrite Hd, Hdec. Qed.

Lemma coerce_digit_limit (raw : string) :
  isdigit raw = true -> (MAX_STR_DIGITS < String.length raw)%nat ->
  coerce json_loads raw = Raise ValueError.
Proof.
  intros Hd Hlen. apply Nat.leb_gt in Hlen.
  unfold coerce, int_of_string. by rewrite Hd, Hlen, andb_false_r.
Qed.

Lemma coerce_boolean (raw : string) (b : bool) :
  isdigit raw = false ->
  lower raw = (if b then "true" else "false") ->
  coerce json_loads raw = Ok (VBool b).
Proof. intros Hd Hb. unfold coerce. rewrite Hd, Hb. by destruct b. Qed.

Lemma coerce_json (raw : string) (v : value) :
  isdigit raw = false -> lower raw <> "true" -> lower raw <> "false" ->
  json_loads raw = Parsed v ->
  coerce json_loads raw = Ok v.
Proof.
  intros Hd Ht Hf Hp. unfold coerce. rewrite Hd, Hp.
  apply String.eqb_neq in Ht, Hf. by rewrite Ht, Hf.
Qed.

Lemma coerce_kept (raw message : string) :
  isdigit raw = false -> lower raw <> "true" -> lower raw <> "false" ->
  json_loads raw = ParseError message ->
  coerce json_loads raw = Ok (VStr raw).
Proof.
  intros Hd Ht Hf Hp. unfold coerce. rewrite Hd, Hp.
  apply String.eqb_neq in Ht, Hf. by rewrite Ht, Hf.
Qed.

Lemma descend_Ok_finish (parts : list string) (finish : value -> result value)
  (target v : value) :
  descend parts finish target = Ok v -> exists t v', finish t = Ok v'.
Proof.
  revert target v. induction parts as [|p rest IH]; intros target v; simpl.
  - eauto.
  - destruct target as [ | | | | | |d]; try discriminate.
    destruct (descend rest finish _) as [inner'|] eqn:Hin; simpl; [|discriminate].
    intros _. eauto.
Qed.

Lemma descend_places (parts : list string) (finish : value -> result value)
  (target v : value) (leaf : string) (c : value) :
  (forall t v', finish t = Ok v' -> get_path [leaf] v' = Some c) ->
  descend parts finish target = Ok v ->
  get_path (parts ++ [leaf]) v = Some c.
Proof.
  intros Hfinish. revert target v.
  induction parts as [|p rest IH]; intros target v; simpl; [apply Hfinish|].
  destruct target as [ | | | | | |d]; try discriminate.
  destruct (descend rest finish _) as [inner'|] eqn:Hin; simpl; [|discriminate].
  intros H. injection H as <-. rewrite dict_get_set_eq. eauto.
Qed.

Lemma env_loop_app (t1 t2 : list (string * string)) (ov : value) :
  env_loop json_loads (t1 ++ t2) ov =
  env_loop json_loads t1 ov ≫= env_loop json_loads t2.
Proof.
  revert ov. induction t1 as [|e t1 IH]; intros ov; simpl; [done|].
  destruct (env_step json_loads ov e); simpl; [apply IH | done].
Qed.

Lemma env_step_places (ov v : value) (key raw : string) :
  String.prefix PREFIX key = true ->
  env_step json_loads ov (key, raw) = Ok v ->
  let parts := split_dunder (lower (string_drop (String.length PREFIX) key)) in
  exists c,
    coerce json_loads raw = Ok c /\
    get_path (List.removelast parts ++ [List.last parts EmptyString]) v = Some c.
Proof.
  intros Hpre Hstep parts. unfold env_step in Hstep.
  rewrite Hpre in Hstep. cbn [negb] in Hstep. fold parts in Hstep.
  destruct (descend_Ok_finish _ _ _ _ Hstep) as (t & v' & Hfin).
  destruct (coerce json_loads raw) as [c|] eqn:Hc; [|discriminate Hfin].
  exists c. split; [done|].
  refine (descend_places _ _ _ _ _ _ _ Hstep).
  intros t0 v0 H0. cbn [mbind result_bind] in H0.
  destruct t0 as [ | | | | | |d]; try discriminate H0.
  injection H0 as <-. cbn [get_path]. by rewrite dict_get_set_eq.
Qed.

(** X10.  Whenever [_env_overrides] returns, the coerced value of the variable
    processed last sits at the end of the path [parts[:-1]], [parts[-1]]
    that its name spells. *)
Lemma env_last_variable_placed (h : host) (table : list (string * string))
  (key raw : string) (E : value) :
  environ h = table ++ [(key, raw)] ->
  String.prefix PREFIX key = true ->
  _env_overrides json_loads h = Ok E ->
  let parts := split_dunder (lower (string_drop (String.length PREFIX) key)) in
  exists c,
    coerce json_loads raw = Ok c /\
    get_path (List.removelast parts ++ [List.last parts EmptyString]) E = Some c.
Proof.
  intros Henv Hpre. unfold _env_overrides. rewrite Henv, env_loop_app.
  destruct (env_loop json_loads table (VDict [])) as [ov|]; [|discriminate].
  cbn [mbind result_bind env_loop].
  destruct (env_step json_loads ov (key, raw)) as [v|] eqn:Hstep; [|discriminate].
  cbn [mbind result_bind]. intros H. injection H as <-.
  by apply (env_step_places ov).
Qed.

End Overrides.

(** ** The code at concrete inputs *)

(** C2.  A workspace file [config.json] whose text is the JSON list [[1]]
    makes [load_agent_os_config] raise: the layer is truthy, and
    [_deep_merge] calls [items] on a list. *)
Theorem non_mapping_layer_raises (json_loads : string -> parsed)
  (yaml : option (string -> parsed)) (path_str : path -> string)
  (path_of_string : string -> path) :
  json_loads list_text = Parsed (VList [VInt 1]) ->
  load_agent_os_config json_loads yaml path_str path_of_string list_host ["w"]
  = Raise AttributeError.
Proof.
  intros Hparse.
  assert (Hws : _collect_layer_config json_loads yaml path_str list_host
                  (ws_dir ["w"]) = VList [VInt 1]).
  { unfold _collect_layer_config. simpl.
    unfold _load_file, parse_file. simpl. rewrite Hparse. by destruct yaml. }
  unfold load_agent_os_config. cbv zeta. rewrite Hws. reflexivity.
Qed.

Lemma non_mapping_layer_raises_witness :
  sample_loads list_text = Parsed (VList [VInt 1]) /\
  sample_load list_host ["w"] = Raise AttributeError.
Proof.
  split; [reflexivity|].
  apply (non_mapping_layer_raises sample_loads None posix_str posix_path).
  reflexivity.
Defined.

(** C3.  A leaf and a mapping at the same position: when the mapping is
    placed first and the leaf last, the leaf wins; when the leaf is placed
    first, placing the mapping raises, because [setdefault] hands back the
    leaf and the item assignment is made on it. *)
Theorem env_collision_depends_on_order (json_loads : string -> parsed) :
  _env_overrides json_loads (posix_host (Dir []) mapping_then_leaf)
  = Ok (VDict [("a", VInt 4)]) /\
  _env_overrides json_loads (posix_host (Dir []) leaf_then_mapping)
  = Raise TypeError.
Proof. split; reflexivity. Qed.

(** C7.  [PREFIX_SAMPLING__MAX_PARALLEL=4] yields the nested mapping with the
    integer 4, but a value made of the digit U+00B2 passes [isdigit] and
    then [int] raises: the value neither falls through to the JSON parser
    nor is kept as a string. *)
Theorem env_superscript_digit_raises (json_loads : string -> parsed) :
  _env_overrides json_loads
    (posix_host (Dir []) [("EVOSUITE_AGENT_OS_SAMPLING__MAX_PARALLEL", "4")])
  = Ok (VDict [("sampling", VDict [("max_parallel", VInt 4)])]) /\
  _env_overrides json_loads
    (posix_host (Dir []) [("EVOSUITE_AGENT_OS_X", superscript_two)])
  = Raise ValueError.
Proof. split; reflexivity. Qed.

(** C4 as stated fails: packaged defaults that hold a list under the
    reserved key add their own entry to the provenance list, which then is
    not the list of the non-empty layers. *)
Lemma provenance_lists_nonempty_layers_counterexample :
  sample_collect reserved_package_host (pkg_defaults_dir reserved_package_host)
  = VDict [("_provenance", VList [VStr "x"])] /\
  sample_collect reserved_package_host
    (_platform_user_config_root posix_path reserved_package_host) = VDict [] /\
  sample_collect reserved_package_host (ws_dir ["w"]) = VDict [] /\
  sample_overrides reserved_package_host = Ok (VDict []) /\
  sample_load reserved_package_host ["w"]
  = Ok [("_provenance", VList [VStr "x"; VStr "package"])] /\
  [VStr "x"; VStr "package"] <> [VStr "package"].
Proof. split_and!; [reflexivity .. | discriminate]. Qed.

(** C5 as stated fails: with nothing to load, the returned mapping still
    contains the reserved key. *)
Lemma empty_layers_keep_provenance_key_counterexample :
  sample_collect bare_host (pkg_defaults_dir bare_host) = VDict [] /\
  sample_collect bare_host (_platform_user_config_root posix_path bare_host)
  = VDict [] /\
  sample_collect bare_host (ws_dir ["w"]) = VDict [] /\
  environ bare_host = [] /\
  exists m, sample_load bare_host ["w"] = Ok m /\ dict_get PROVENANCE m <> None.
Proof. split_and!; [reflexivity .. |]. eexists. split; [reflexivity | discriminate]. Qed.

(** C6 as stated fails: a user file that holds a list under the reserved
    key has that list merged into the provenance value, which then holds an
    entry the engine did not write. *)
Lemma provenance_engine_written_counterexample :
  exists m l,
    sample_load reserved_user_host ["w"] = Ok m /\
    dict_get PROVENANCE m = Some (VList l) /\
    VStr "x" ∈ l /\
    VStr "x" ∉ [VStr "package";
                VStr (posix_str (_platform_user_config_root posix_path reserved_user_host));
                VStr (posix_str (ws_dir ["w"])); VStr "env"].
Proof.
  do 2 eexists. split_and!; [reflexivity | reflexivity | apply list_elem_of_here |].
  intros H. repeat (apply elem_of_cons in H as [H | H]; [discriminate H|]).
  by apply elem_of_nil in H.
Qed.

(** ** The theorems at concrete inputs *)

Lemma precedence_highest_layer_wins_witness :
  sample_load layered_host ["w"]
  = Ok [("_provenance", VList [VStr "package"; VStr "/w/.agent-os"; VStr "env"]);
        ("level", VStr "TRACE")] /\
  highest_setting "level"
    [VDict [("level", VStr "TRACE")]; VDict [("level", VStr "DEBUG")]; VDict [];
     VDict [("level", VStr "INFO")]] = Some (VStr "TRACE") /\
  dict_get "level"
    [("_provenance", VList [VStr "package"; VStr "/w/.agent-os"; VStr "env"]);
     ("level", VStr "TRACE")] = Some (VStr "TRACE").
Proof.
  split; [reflexivity|]. split; [reflexivity|].
  apply (precedence_highest_layer_wins sample_loads None posix_str posix_path
           layered_host ["w"] _ (VDict [("level", VStr "TRACE")]) "level"
           (VStr "TRACE")).
  - reflexivity.
  - reflexivity.
  - vm_compute. apply (bool_decide_unpack _). vm_compute. exact I.
  - vm_compute. apply (bool_decide_unpack _). vm_compute. exact I.
  - vm_compute. apply (bool_decide_unpack _). vm_compute. exact I.
  - reflexivity.
  - reflexivity.
Defined.

Lemma provenance_lists_nonempty_layers_witness :
  dict_get PROVENANCE
    [("_provenance", VList [VStr "package"; VStr "/w/.agent-os"; VStr "env"]);
     ("level", VStr "TRACE")]
  = Some (VList [VStr "package"; VStr "/w/.agent-os"; VStr "env"]).
Proof.
  apply (provenance_lists_nonempty_layers sample_loads None posix_str posix_path
           layered_host ["w"] _ (VDict [("level", VStr "TRACE")])); reflexivity.
Defined.

Lemma empty_layers_keep_provenance_key_witness :
  sample_load (posix_host (Dir []) [("HOME", "/home/dev")]) ["w"]
  = Ok [(PROVENANCE, VList [])].
Proof.
  apply (empty_layers_keep_provenance_key sample_loads None posix_str posix_path);
    [reflexivity .. |].
  intros e He. apply list_elem_of_singleton in He. subst e. reflexivity.
Defined.

Lemma provenance_engine_written_witness :
  exists l,
    dict_get PROVENANCE
      [("_provenance", VList [VStr "package"; VStr "/w/.agent-os"; VStr "env"]);
       ("level", VStr "TRACE")] = Some (VList l) /\
    Forall (fun x => x ∈ [VStr "package"; VStr "/home/dev/.config/evosuite/agent-os";
                          VStr "/w/.agent-os"; VStr "env"]) l.
Proof.
  apply (provenance_engine_written sample_loads None posix_str posix_path
           layered_host ["w"] _ (VDict [("level", VStr "TRACE")])); reflexivity.
Defined.

Lemma merge_lists_append_unique_witness :
  exists appended,
    dict_get "tags" (_deep_merge tags_base tags_incoming)
    = Some (VList ([VStr "a"; VDict [("x", VInt 1); ("y", VNull)]] ++ appended)) /\
    sublist appended [VDict [("y", VNull); ("x", VInt 1)]; VStr "b"; VStr "b"].
Proof.
  destruct (merge_lists_append_unique tags_base tags_incoming "tags"
              [VStr "a"; VDict [("x", VInt 1); ("y", VNull)]]
              [VDict [("y", VNull); ("x", VInt 1)]; VStr "b"; VStr "b"])
    as (appended & Hget & Hsub & _).
  - apply (bool_decide_unpack _). vm_compute. exact I.
  - reflexivity.
  - reflexivity.
  - exists appended. split; [exact Hget | exact Hsub].
Defined.

Lemma collect_first_match_wins_witness :
  path_exists two_candidates_host (["w"; ".agent-os"] ++ ["config.json"]) = true /\
  _collect_layer_config sample_loads (Some sample_yaml) posix_str two_candidates_host
    ["w"; ".agent-os"]
  = _load_file sample_loads (Some sample_yaml) posix_str two_candidates_host
      (["w"; ".agent-os"] ++ ["config.yaml"]) /\
  _collect_layer_config sample_loads (Some sample_yaml) posix_str two_candidates_host
    ["w"; ".agent-os"] = VDict [("level", VStr "INFO")].
Proof.
  split; [reflexivity|].
  assert (H := proj1 (collect_first_match_wins sample_loads (Some sample_yaml)
                        posix_str two_candidates_host ["w"; ".agent-os"]) eq_refl).
  split; [exact H | reflexivity].
Defined.

Lemma deep_merge_idempotent_witness :
  _deep_merge (_deep_merge tags_base tags_incoming) tags_incoming
  = _deep_merge tags_base tags_incoming.
Proof.
  apply deep_merge_idempotent. simpl.
  repeat split; apply (bool_decide_unpack _); vm_compute; exact I.
Defined.

(** * Further properties of the code *)

(** ** [_deep_merge], key by key *)

Lemma filter_agree {A : Type} (P Q : A -> Prop) {DP : forall x, Decision (P x)}
  {DQ : forall x, Decision (Q x)} (l : list A) :
  (forall x, x ∈ l -> P x <-> Q x) -> filter P l = filter Q l.
Proof.
  induction l as [|x l IH]; intros Hag; [done|].
  rewrite !filter_cons.
  rewrite IH by (intros y Hy; apply Hag; by apply list_elem_of_further).
  pose proof (Hag x (list_elem_of_here _ _)) as Hx.
  destruct (decide (P x)), (decide (Q x)); tauto || done.
Qed.

(** X1.  The value a merge leaves under a key: the base value when the
    incoming mapping lacks the key; else the incoming value, unless both
    values are mappings (merged recursively) or both are lists (united). *)
Theorem deep_merge_lookup (base incoming : dict) (k : string) :
  NoDup (keys incoming) ->
  dict_get k (_deep_merge base incoming) =
  match dict_get k incoming with
  | None => dict_get k base
  | Some v =>
      Some match dict_get k base, v with
           | Some (VDict b), VDict i => VDict (_deep_merge b i)
           | Some (VList b), VList i => VList (merge_lists b i)
           | _, _ => v
           end
  end.
Proof.
  intros Hnd. destruct (dict_get k incoming) as [v|] eqn:Hk.
  - by apply deep_merge_get_elem, dict_get_Some_elem.
  - by apply deep_merge_get_other, dict_get_None.
Qed.

Lemma deep_merge_lookup_witness :
  dict_get "logging" (_deep_merge tags_base tags_incoming)
  = Some (VDict [("level", VStr "DEBUG"); ("sinks", VList [VStr "file"])]).
Proof.
  rewrite (deep_merge_lookup tags_base tags_incoming "logging").
  - reflexivity.
  - apply (bool_decide_unpack _). vm_compute. exact I.
Defined.

(** X2.  A merge keeps every key of the base at its position and puts the
    keys that are new after them, in the order of the incoming mapping. *)
Theorem deep_merge_keys (base incoming : dict) :
  NoDup (keys incoming) ->
  keys (_deep_merge base incoming) =
  keys base ++ filter (fun k => k ∉ keys base) (keys incoming).
Proof.
  revert base. induction incoming as [|[k v] rest IH]; intros base Hnd.
  - by rewrite deep_merge_nil, app_nil_r.
  - simpl in Hnd. apply NoDup_cons in Hnd as [Hk Hnd].
    rewrite deep_merge_cons, IH, keys_dict_set by done. simpl.
    destruct (dict_get k base) as [old|] eqn:Hget.
    + rewrite filter_cons_False; [done|].
      intros Hout. apply Hout. eapply elem_keys, dict_get_Some_elem, Hget.
    + apply dict_get_None in Hget.
      rewrite filter_cons_True by done. rewrite <- app_assoc. simpl. do 2 f_equal.
      apply filter_agree. intros x Hx.
      rewrite not_elem_of_app, list_elem_of_singleton.
      split; [tauto|]. intros Hb. split; [done|]. by intros ->.
Qed.

Lemma deep_merge_keys_witness :
  keys (_deep_merge [("a", VInt 1); ("b", VInt 2)] [("c", VInt 3); ("a", VInt 4)])
  = ["a"; "b"; "c"].
Proof.
  rewrite deep_merge_keys.
  - vm_compute. reflexivity.
  - apply (bool_decide_unpack _). vm_compute. exact I.
Defined.

(** X3.  Merging a mapping none of whose keys is in the base appends its
    entries as they are, in their order; in particular a merge into the empty
    mapping gives the incoming mapping. *)
Theorem deep_merge_new_keys (base incoming : dict) :
  NoDup (keys incoming) ->
  (forall k, k ∈ keys incoming -> k ∉ keys base) ->
  _deep_merge base incoming = base ++ incoming.
Proof.
  revert base. induction incoming as [|[k v] rest IH]; intros base Hnd Hnew.
  - by rewrite deep_merge_nil, app_nil_r.
  - simpl in Hnd. apply NoDup_cons in Hnd as [Hk Hnd].
    assert (Hkb : k ∉ keys base) by (apply Hnew; simpl; apply list_elem_of_here).
    assert (Hset : forall x (d : dict), k ∉ keys d -> dict_set k x d = d ++ [(k, x)]).
    { intros x d. induction d as [|[k' v'] d IHd]; simpl; [done|].
      rewrite not_elem_of_cons. intros [Hne Hd]. case_eqb; [done|]. by rewrite IHd. }
    rewrite deep_merge_cons. apply dict_get_None in Hkb as Hget.
    rewrite Hget. simpl. rewrite Hset by done. rewrite IH.
    + by rewrite <- app_assoc.
    + done.
    + intros k' Hk'. unfold keys. rewrite map_app. simpl.
      rewrite not_elem_of_app, list_elem_of_singleton. split.
      * apply Hnew. simpl. by apply list_elem_of_further.
      * by intros ->.
Qed.

Lemma deep_merge_new_keys_witness :
  _deep_merge [] tags_incoming = tags_incoming.
Proof.
  apply (deep_merge_new_keys [] tags_incoming).
  - apply (bool_decide_unpack _). vm_compute. exact I.
  - intros k _. apply not_elem_of_nil.
Defined.

(** ** Well-formed mappings stay well-formed *)

Lemma wf_dict_intro (d : dict) :
  NoDup (keys d) -> Forall (fun e => wf (snd e)) d -> wf (VDict d).
Proof.
  intros Hnd Hall. split; [exact Hnd|]. clear Hnd.
  induction Hall as [|[k x] d Hx Hd IH]; [exact I | split; assumption].
Qed.

Lemma wf_list_iff (l : list value) : wf (VList l) <-> Forall wf l.
Proof.
  induction l as [|x l IH]; [split; [constructor | intros _; exact I]|].
  split.
  - intros [Hx Hl]. constructor; [done | by apply IH].
  - intros H. inversion H; subst. split; [done | by apply IH].
Qed.

Lemma wf_dict_get (d : dict) (k : string) (v : value) :
  wf (VDict d) -> dict_get k d = Some v -> wf v.
Proof.
  intros Hwf Hget. apply wf_dict_inv in Hwf as [_ Hall].
  rewrite Forall_forall in Hall. apply (Hall (k, v)). by apply dict_get_Some_elem.
Qed.

Lemma wf_dict_set (d : dict) (k : string) (v : value) :
  wf (VDict d) -> wf v -> wf (VDict (dict_set k v d)).
Proof.
  intros Hwf Hv. apply wf_dict_inv in Hwf as [Hnd Hall].
  apply wf_dict_intro; [by apply keys_unique_dict_set|].
  clear Hnd. induction Hall as [|[k' x] d Hx Hd IH]; simpl.
  - by constructor.
  - case_eqb; constructor; done.
Qed.

Lemma wf_merge_lists (b i : list value) :
  Forall wf b -> Forall wf i -> Forall wf (merge_lists b i).
Proof.
  intros Hb Hi. unfold merge_lists. rewrite append_unique_app.
  apply Forall_app. split; [done|].
  apply Forall_forall. intros x Hx. rewrite Forall_forall in Hi. apply Hi.
  eapply elem_of_sublist; [exact Hx | apply append_unique_sublist].
Qed.

Lemma wf_merged_value (old : option value) (v : value) :
  (forall b i, old = Some (VDict b) -> v = VDict i -> wf (VDict (_deep_merge b i))) ->
  (forall o, old = Some o -> wf o) -> wf v ->
  wf (merged_value old v).
Proof.
  intros Hrec Hold Hv.
  destruct old as [[ | | | | |b|b]|], v as [ | | | | |i|i]; simpl; try done.
  - apply wf_list_iff, wf_merge_lists; apply wf_list_iff; [by apply Hold | done].
  - by apply Hrec.
Qed.

Lemma merge_into_wf (v : value) :
  wf v -> forall b, wf (VDict b) -> wf (VDict (merge_into v b)).
Proof.
  induction v as [ |b0|n|r|s|l IHl|d IH] using value_nested_ind; intros Hwf b Hb;
    try exact Hb.
  change (merge_into (VDict d) b) with (_deep_merge b d).
  apply wf_dict_inv in Hwf as [_ Hall]. revert b Hb.
  induction d as [|[k x] rest IHrest]; intros b Hb; [exact Hb|].
  inversion IH as [|? ? IHx IHtail]; subst.
  inversion Hall as [|? ? Hx Htail]; subst. cbn [snd] in IHx, Hx.
  rewrite deep_merge_cons. apply IHrest; [done | done |].
  apply wf_dict_set; [done|].
  apply wf_merged_value; [| |done].
  - intros b0 i Hget ->. apply (IHx Hx). by apply (wf_dict_get b k).
  - intros o Hget. by apply (wf_dict_get b k).
Qed.

(** X4.  Merging mappings that hold no key twice, at any depth, gives a
    mapping that holds no key twice at any depth. *)
Theorem deep_merge_wf (base incoming : dict) :
  wf (VDict base) -> wf (VDict incoming) -> wf (VDict (_deep_merge base incoming)).
Proof. intros Hb Hi. by apply (merge_into_wf (VDict incoming)). Qed.

Lemma deep_merge_wf_witness : wf (VDict (_deep_merge tags_base tags_incoming)).
Proof.
  apply deep_merge_wf; simpl;
    repeat split; apply (bool_decide_unpack _); vm_compute; exact I.
Defined.

(** ** Lists without duplicates *)

(** X5.  Uniting lists never shortens the base list and adds at most the
    incoming elements; when no two base elements are encoded alike, no two
    elements of the united list are. *)
Theorem merge_lists_no_duplicates (b i : list value) :
  (length b <= length (merge_lists b i) <= length b + length i)%nat /\
  (NoDup (map json_dumps_sorted b) ->
   NoDup (map json_dumps_sorted (merge_lists b i))).
Proof.
  unfold merge_lists. rewrite append_unique_app.
  pose proof (sublist_length _ _
    (append_unique_sublist (list_to_set (map json_dumps_sorted b)) i)) as Hlen.
  split; [rewrite length_app; lia|].
  intros Hnd. rewrite map_app. apply NoDup_app. split_and!; [done | | apply append_unique_NoDup].
  intros e He He'. apply append_unique_encodings in He' as [_ Hout].
  apply Hout. by apply elem_of_list_to_set.
Qed.

Lemma merge_lists_no_duplicates_witness :
  NoDup (map json_dumps_sorted
           (merge_lists [VStr "a"; VInt 1] [VInt 1; VStr "b"; VStr "b"])).
Proof.
  apply (proj2 (merge_lists_no_duplicates _ _)).
  apply (bool_decide_unpack _). vm_compute. exact I.
Defined.

(** ** The canonical encoding *)

Lemma insert_by_key_Permutation (e : string * string) (l : list (string * string)) :
  insert_by_key e l ≡ₚ e :: l.
Proof.
  induction l as [|e' l IH]; simpl; [done|].
  destruct (String.leb (fst e) (fst e')); [done|].
  rewrite IH. apply Permutation_swap.
Qed.

Lemma sort_by_key_Permutation (l : list (string * string)) : sort_by_key l ≡ₚ l.
Proof.
  induction l as [|e l IH]; simpl; [done|].
  by rewrite insert_by_key_Permutation, IH.
Qed.

Lemma insert_by_key_Sorted (e : string * string) (l : list (string * string)) :
  Sorted key_le l -> Sorted key_le (insert_by_key e l).
Proof.
  induction l as [|e' l IH]; simpl; intros Hs.
  - by repeat constructor.
  - destruct (String.leb (fst e) (fst e')) eqn:Hle.
    + constructor; [done|]. constructor. by apply Is_true_true.
    + assert (He' : key_le e' e).
      { destruct (String.leb_total (fst e) (fst e')) as [H|H]; [congruence|].
        by apply Is_true_true. }
      inversion Hs as [|? ? Hl Hhd]; subst.
      constructor; [by apply IH|].
      destruct l as [|e'' l]; simpl; [by constructor|].
      destruct (String.leb (fst e) (fst e'')); constructor; [done|].
      by inversion Hhd.
Qed.

Lemma sort_by_key_Sorted (l : list (string * string)) : Sorted key_le (sort_by_key l).
Proof.
  induction l as [|e l IH]; simpl; [constructor | by apply insert_by_key_Sorted].
Qed.

#[local] Instance key_le_transitive : Transitive key_le.
Proof. intros x y z. unfold key_le. apply (transitivity (R := String.le)). Qed.

Lemma unique_key_entry {A : Type} (l : list (string * A)) (x y : string * A) :
  NoDup (map fst l) -> x ∈ l -> y ∈ l -> fst x = fst y -> x = y.
Proof.
  induction l as [|e l IH]; simpl; intros Hnd Hx Hy Heq.
  - by apply elem_of_nil in Hx.
  - apply NoDup_cons in Hnd as [He Hnd].
    apply elem_of_cons in Hx as [-> | Hx]; apply elem_of_cons in Hy as [-> | Hy];
      try done; auto.
    + exfalso. apply He. rewrite Heq. by apply (list_elem_of_fmap_2 fst).
    + exfalso. apply He. rewrite <- Heq. by apply (list_elem_of_fmap_2 fst).
Qed.

(** X6.  The encoding does not see the order of the keys: two mappings with
    the same entries in different orders are encoded alike, so a list that
    holds one of them gains nothing from a union with the other. *)
Theorem dumps_ignores_key_order (d d' : dict) :
  d ≡ₚ d' -> NoDup (keys d) ->
  json_dumps_sorted (VDict d) = json_dumps_sorted (VDict d') /\
  forall b, VDict d ∈ b -> merge_lists b [VDict d'] = b.
Proof.
  intros Hperm Hnd.
  assert (Henc : json_dumps_sorted (VDict d) = json_dumps_sorted (VDict d')).
  { simpl. do 4 f_equal.
    set (f := fun e : string * value => (fst e, json_dumps_sorted (snd e))).
    assert (Hf : map f d ≡ₚ map f d') by (by apply (fmap_Permutation f)).
    assert (Hk : NoDup (map fst (map f d))).
    { rewrite map_map. exact Hnd. }
    apply (Sorted_unique_strong key_le); try apply sort_by_key_Sorted.
    - intros x1 x2 H1 H2 H12 H21.
      apply (unique_key_entry (map f d)); [done | | |].
      + by rewrite <- (sort_by_key_Permutation (map f d)).
      + by rewrite Hf, <- (sort_by_key_Permutation (map f d')).
      + by apply (anti_symm String.le).
    - by rewrite !sort_by_key_Permutation. }
  split; [exact Henc|].
  intros b Hb. apply merge_lists_covered. intros x Hx.
  apply list_elem_of_singleton in Hx. subst x. rewrite <- Henc.
  by apply (list_elem_of_fmap_2 json_dumps_sorted).
Qed.

Lemma dumps_ignores_key_order_witness :
  json_dumps_sorted (VDict [("x", VInt 1); ("y", VNull)])
  = json_dumps_sorted (VDict [("y", VNull); ("x", VInt 1)]).
Proof.
  apply (dumps_ignores_key_order [("x", VInt 1); ("y", VNull)]
           [("y", VNull); ("x", VInt 1)]).
  - apply Permutation_swap.
  - apply (bool_decide_unpack _). vm_compute. exact I.
Defined.

(** ** Environment variables *)

(** X7.  Variables without the prefix are ignored entirely: the overrides
    built from an environment table are those built from its prefixed
    variables alone. *)
Theorem env_ignores_other_variables (json_loads : string -> parsed) (h h' : host) :
  environ h' = List.filter (fun e => String.prefix PREFIX (fst e)) (environ h) ->
  _env_overrides json_loads h' = _env_overrides json_loads h.
Proof.
  unfold _env_overrides. intros ->. generalize (VDict []).
  induction (environ h) as [|[key raw] table IH]; intros ov; [done|].
  cbn [List.filter fst]. destruct (String.prefix PREFIX key) eqn:Hpre.
  - cbn [env_loop]. destruct (env_step json_loads ov (key, raw)); [apply IH | done].
  - cbn [env_loop]. unfold env_step. rewrite Hpre. apply IH.
Qed.

Lemma env_ignores_other_variables_witness :
  sample_overrides (posix_host (Dir []) [("EVOSUITE_AGENT_OS_LEVEL", "TRACE")])
  = sample_overrides layered_host.
Proof. by apply env_ignores_other_variables. Defined.

Lemma split_dunder_cons (c : ascii) (rest : string) :
  split_dunder (String c rest) =
  if Ascii.eqb c "_"
     && match rest with String c' _ => Ascii.eqb c' "_" | EmptyString => false end
  then EmptyString :: split_dunder (string_drop 1 rest)
  else match split_dunder rest with
       | [] => [String c EmptyString]
       | part :: parts => String c part :: parts
       end.
Proof.
  destruct c as [[] [] [] [] [] [] [] []]; try reflexivity.
  destruct rest as [|[[] [] [] [] [] [] [] []] rest']; reflexivity.
Qed.

Lemma concat_cons_more (sep x y : string) (l : list string) :
  String.concat sep (x :: y :: l) = x +:+ sep +:+ String.concat sep (y :: l).
Proof. reflexivity. Qed.

Lemma concat_first_char (sep : string) (c : ascii) (p : string) (ps : list string) :
  String.concat sep (String c p :: ps) = String c (String.concat sep (p :: ps)).
Proof. destruct ps; reflexivity. Qed.

(** X8.  Splitting a name at its double underscores loses nothing: there is
    at least one segment, and joining the segments with double underscores
    gives the name back. *)
Theorem split_dunder_join (s : string) :
  split_dunder s <> [] /\ String.concat "__" (split_dunder s) = s.
Proof.
  remember (String.length s) as n eqn:Hn.
  revert s Hn. induction n as [n IH] using lt_wf_ind. intros s Hn.
  destruct s as [|c rest]; [by split|].
  assert (Hrest : forall t, (String.length t <= String.length rest)%nat ->
            split_dunder t <> [] /\ String.concat "__" (split_dunder t) = t).
  { intros t Ht. apply (IH (String.length t)); [simpl in Hn; lia | done]. }
  assert (Hkeep : split_dunder rest <> [] ->
            String.concat "__" (split_dunder rest) = rest ->
            match split_dunder rest with
            | [] => [String c EmptyString]
            | part :: parts => String c part :: parts
            end <> [] /\
            String.concat "__"
              match split_dunder rest with
              | [] => [String c EmptyString]
              | part :: parts => String c part :: parts
              end = String c rest).
  { destruct (split_dunder rest) as [|p ps]; [done|]. intros _ Hjoin.
    split; [done|]. by rewrite concat_first_char, Hjoin. }
  rewrite split_dunder_cons.
  destruct (Ascii.eqb c "_" && _) eqn:Hcut.
  - apply andb_prop in Hcut as [Hc Hc'].
    apply Ascii.eqb_eq in Hc. subst c.
    destruct rest as [|c' rest']; [discriminate|].
    apply Ascii.eqb_eq in Hc'. subst c'. cbn [string_drop].
    destruct (Hrest rest') as [Hne Hjoin]; [simpl; lia|].
    split; [done|].
    destruct (split_dunder rest') as [|p ps]; [done|].
    by rewrite concat_cons_more, Hjoin.
  - destruct (Hrest rest) as [Hne Hjoin]; [lia|]. by apply Hkeep.
Qed.

(** ** Coercion reads back what the encoder writes *)

Lemma pretty_N_char_decimal (d : N) :
  (d < 10)%N ->
  is_decimal_char (pretty_N_char d) = true /\
  Z.of_N (N_of_ascii (pretty_N_char d) - 48) = Z.of_N d.
Proof.
  intros Hd.
  assert (d = 0 \/ d = 1 \/ d = 2 \/ d = 3 \/ d = 4 \/ d = 5 \/ d = 6 \/ d = 7
          \/ d = 8 \/ d = 9)%N as H by lia.
  repeat (destruct H as [-> | H]; [by split|]). subst. by split.
Qed.

Lemma pretty_N_go_decimal (x : N) :
  forall s acc,
    (string_forall is_decimal_char s = true ->
     string_forall is_decimal_char (pretty_N_go x s) = true) /\
    exists k : Z,
      decimal_value acc (pretty_N_go x s) = decimal_value (acc * 10 ^ k + Z.of_N x) s
      /\ (0 <= k)%Z.
Proof.
  induction (N.lt_wf_0 x) as [x _ IH]. intros s acc.
  assert (x = 0 \/ 0 < x)%N as [-> | Hpos] by lia.
  - rewrite pretty_N_go_0. split; [done|]. exists 0%Z. split; [f_equal; lia | lia].
  - rewrite pretty_N_go_step by done.
    destruct (pretty_N_char_decimal (x `mod` 10)) as [Hdec Hval];
      [by apply N.mod_lt|].
    destruct (IH (x `div` 10)%N (N.div_lt x 10 Hpos eq_refl)
                (String (pretty_N_char (x `mod` 10)) s) acc) as [Hall (k & Hk & Hk0)].
    split.
    + intros Hs. apply Hall. simpl. by rewrite Hdec, Hs.
    + exists (k + 1)%Z. split; [|lia]. rewrite Hk. simpl. f_equal. rewrite Hval.
      rewrite Z.pow_add_r by lia.
      pose proof (N.div_mod x 10) as Hdm.
      assert (Z.of_N x = 10 * Z.of_N (x `div` 10) + Z.of_N (x `mod` 10))%Z by lia.
      lia.
Qed.

Lemma decimal_chars_are_digits (s : string) :
  string_forall is_decimal_char s = true -> string_forall is_digit_char s = true.
Proof.
  induction s as [|c s IH]; [done|]. cbn [string_forall].
  intros H. apply andb_prop in H as [Hc Hs].
  rewrite IH by done. unfold is_digit_char. by rewrite Hc.
Qed.

Lemma pretty_N_go_length (k : nat) :
  forall x s,
    (x < 10 ^ N.of_nat k)%N ->
    (String.length (pretty_N_go x s) <= k + String.length s)%nat.
Proof.
  induction k as [|k IH]; intros x s Hx.
  - assert (x = 0)%N as -> by (simpl in Hx; lia). by rewrite pretty_N_go_0.
  - assert (x = 0 \/ 0 < x)%N as [-> | Hpos] by lia.
    + rewrite pretty_N_go_0. lia.
    + rewrite pretty_N_go_step by done.
      etrans; [apply IH|simpl; lia].
      apply N.Div0.div_lt_upper_bound.
      by rewrite Nat2N.inj_succ, N.pow_succ_r' in Hx.
Qed.

Lemma pretty_N_go_grows (x : N) :
  forall s, (String.length s <= String.length (pretty_N_go x s))%nat.
Proof.
  induction (N.lt_wf_0 x) as [x _ IHx]. intros s.
  assert (x = 0 \/ 0 < x)%N as [-> | Hpos] by lia; [by rewrite pretty_N_go_0|].
  rewrite pretty_N_go_step by done.
  etrans; [|apply IHx; by apply N.div_lt]. simpl. lia.
Qed.

(** The decimal text of a natural number below [10 ^ k]: decimal digits, at
    least one and at most [k] of them, that read back as the number. *)
Lemma pretty_decimal (k : nat) (n : Z) :
  (0 <= n < 10 ^ Z.of_nat k)%Z ->
  string_forall is_decimal_char (pretty n) = true /\
  pretty n <> EmptyString /\
  (String.length (pretty n) <= Nat.max 1 k)%nat /\
  decimal_value 0 (pretty n) = n.
Proof.
  intros [Hn Hk]. destruct n as [|p|p]; [|clear Hn|lia].
  { split_and!; [done | done | simpl; lia | done]. }
  change (pretty (Z.pos p)) with (pretty (N.pos p)).
  unfold pretty, pretty_N. rewrite decide_False by done.
  destruct (pretty_N_go_decimal (N.pos p) EmptyString 0) as [Hall (j & Hj & _)].
  split_and!.
  - by apply Hall.
  - rewrite pretty_N_go_step by done. intros Heq.
    pose proof (f_equal String.length Heq) as Hlen. simpl in Hlen.
    pose proof (pretty_N_go_grows (N.pos p `div` 10)%N
                  (String (pretty_N_char (N.pos p `mod` 10)) EmptyString)) as Hgrow.
    simpl in Hgrow. lia.
  - etrans; [apply (pretty_N_go_length k)|simpl; lia].
    apply N2Z.inj_lt. by rewrite N2Z.inj_pow, nat_N_Z.
  - rewrite Hj. simpl. lia.
Qed.

(** X9.  What the encoder prints for a boolean, or for a non-negative
    integer of at most [MAX_STR_DIGITS] digits, is coerced back to that
    value, whatever the JSON parser does. *)
Theorem coerce_reads_back (json_loads : string -> parsed) (v : value) :
  match v with
  | VBool _ => True
  | VInt n => (0 <= n < 10 ^ Z.of_nat MAX_STR_DIGITS)%Z
  | _ => False
  end ->
  coerce json_loads (json_dumps_sorted v) = Ok v.
Proof.
  destruct v as [ |[]|n| | | | ]; try done. intros Hn.
  change (json_dumps_sorted (VInt n)) with (pretty n).
  destruct (pretty_decimal MAX_STR_DIGITS n Hn) as (Hall & Hne & Hlen & Hval).
  rewrite (coerce_decimal json_loads (pretty n)).
  - by rewrite Hval.
  - unfold isdigit. apply andb_true_intro. split.
    + apply negb_true_iff. by apply String.eqb_neq.
    + by apply decimal_chars_are_digits.
  - done.
  - etrans; [exact Hlen|]. apply Nat.max_lub; [|done].
    unfold MAX_STR_DIGITS. apply Nat.leb_le. reflexivity.
Qed.

(** The largest integer that is read back: [MAX_STR_DIGITS] nines. *)
Lemma coerce_reads_back_witness :
  coerce sample_loads (json_dumps_sorted (VInt (10 ^ 4300 - 1)))
  = Ok (VInt (10 ^ 4300 - 1)).
Proof.
  apply (coerce_reads_back sample_loads (VInt (10 ^ 4300 - 1))).
  split; [vm_compute; discriminate | vm_compute; reflexivity].
Defined.

Lemma env_last_variable_placed_witness :
  exists c,
    coerce sample_loads "4" = Ok c /\
    get_path ["sampling"; "max_parallel"]
      (VDict [("sampling", VDict [("max_parallel", VInt 4)])]) = Some c.
Proof.
  apply (env_last_variable_placed sample_loads
           (posix_host (Dir [])
              [("HOME", "/home/dev"); ("EVOSUITE_AGENT_OS_SAMPLING__MAX_PARALLEL", "4")])
           [("HOME", "/home/dev")] "EVOSUITE_AGENT_OS_SAMPLING__MAX_PARALLEL" "4");
    reflexivity.
Defined.

(** ** Loading and merging the layers *)

Section Layers.

Variable json_loads : string -> parsed.
Variable yaml : option (string -> parsed).
Variable path_str : path -> string.
Variable path_of_string : string -> path.

Local Abbreviation collect := (_collect_layer_config json_loads yaml path_str).
Local Abbreviation overrides := (_env_overrides json_loads).
Local Abbreviation user_root := (_platform_user_config_root path_of_string).
Local Abbreviation load := (load_agent_os_config json_loads yaml path_str path_of_string).

(** X11.  Without the YAML package a directory whose first candidate is a
    YAML file loads as the empty mapping, whatever the file holds and even
    when a [config.json] is there as well. *)
Theorem yaml_candidate_without_parser (h : host) (dir_path : path) :
  yaml = None ->
  path_exists h (dir_path ++ ["config.yaml"]) = true \/
  path_exists h (dir_path ++ ["config.yml"]) = true ->
  collect h dir_path = VDict [].
Proof.
  intros Hyaml Hfile. unfold _collect_layer_config. simpl.
  assert (Hload : forall name,
            suffix name <> ".json" ->
            _load_file json_loads yaml path_str h (dir_path ++ [name]) = VDict []).
  { intros name Hsfx. unfold _load_file. rewrite Hyaml.
    destruct (negb (path_exists h (dir_path ++ [name]))); [done|].
    unfold path_name. rewrite last_last.
    apply String.eqb_neq in Hsfx. by rewrite Hsfx. }
  destruct (path_exists h (dir_path ++ ["config.yaml"])) eqn:H1.
  - by apply Hload.
  - destruct Hfile as [Hf | Hf]; [discriminate|]. rewrite Hf. by apply Hload.
Qed.

Lemma apply_layer_provenance (cfg : value) (label : string) (merged : dict)
  (l : list value) :
  dict_get PROVENANCE merged = Some (VList l) ->
  keys_unique cfg ->
  (mergeable cfg ->
   exists m' extra,
     apply_layer cfg label merged = Ok m' /\
     dict_get PROVENANCE m' =
       Some (VList (l ++ extra ++ if truthy cfg then [VStr label] else []))) /\
  (forall m', apply_layer cfg label merged = Ok m' -> mergeable cfg).
Proof.
  intros Hp Hu. split.
  - intros Hm. unfold apply_layer. destruct (truthy cfg) eqn:Ht.
    + destruct (Hm Ht) as (d & -> & Hlist). simpl in Hu |- *.
      unfold provenance_append.
      destruct (dict_get PROVENANCE d) as [v|] eqn:Hv.
      * pose proof (Hlist v eq_refl) as Hv'. destruct v as [ | | | | |i| ]; try done.
        rewrite (deep_merge_get_elem PROVENANCE (VList i)), Hp;
          [|done|by apply dict_get_Some_elem].
        simpl. unfold merge_lists. rewrite append_unique_app.
        do 2 eexists. split; [reflexivity|].
        rewrite dict_get_set_eq. by rewrite <- app_assoc.
      * rewrite deep_merge_get_other, Hp by (by apply dict_get_None).
        exists (dict_set PROVENANCE (VList (l ++ [VStr label])) (_deep_merge merged d)), [].
        split; [reflexivity|]. by rewrite dict_get_set_eq.
    + exists merged, []. by rewrite !app_nil_r.
  - intros m' Hok Ht.
    apply apply_layer_Ok in Hok as [[Hf _] | (d & l' & _ & -> & Hp' & _)];
      [congruence|].
    exists d. split; [done|]. intros v Hv. simpl in Hu.
    rewrite (deep_merge_get_elem PROVENANCE v), Hp in Hp';
      [|done|by apply dict_get_Some_elem].
    destruct v; simpl in Hp'; by try discriminate Hp'.
Qed.

(** X12.  [load_agent_os_config] returns only when the environment
    overrides are built and each of the four layers is empty or a mapping
    whose value under the reserved key, if any, is a list: a layer of any
    other shape makes an exception leave the call. *)
Theorem load_returns_only_if (h : host) (root : path) (m : dict) :
  keys_unique (collect h (pkg_defaults_dir h)) ->
  keys_unique (collect h (user_root h)) ->
  keys_unique (collect h (ws_dir root)) ->
  load h root = Ok m ->
  exists E, overrides h = Ok E /\
    mergeable (collect h (pkg_defaults_dir h)) /\
    mergeable (collect h (user_root h)) /\
    mergeable (collect h (ws_dir root)) /\
    mergeable E.
Proof.
  intros Up Uu Uw Hload.
  apply load_Ok in Hload as (m1 & m2 & m3 & E & H1 & H2 & H3 & HE & H4).
  pose proof (overrides_keys_unique json_loads h E HE) as Ue.
  destruct (apply_layer_provenance _ "package" [(PROVENANCE, VList [])] []
              eq_refl Up) as [F1 B1].
  pose proof (B1 _ H1) as M1. destruct (F1 M1) as (m1' & e1 & H1' & P1).
  rewrite H1 in H1'. injection H1' as <-.
  destruct (apply_layer_provenance _ (path_str (user_root h)) m1 _ P1 Uu) as [F2 B2].
  pose proof (B2 _ H2) as M2. destruct (F2 M2) as (m2' & e2 & H2' & P2).
  rewrite H2 in H2'. injection H2' as <-.
  destruct (apply_layer_provenance _ (path_str (ws_dir root)) m2 _ P2 Uw) as [F3 B3].
  pose proof (B3 _ H3) as M3. destruct (F3 M3) as (m3' & e3 & H3' & P3).
  rewrite H3 in H3'. injection H3' as <-.
  destruct (apply_layer_provenance _ "env" m3 _ P3 Ue) as [_ B4].
  exists E. split_and!; eauto.
Qed.

(** X13.  Whenever [load_agent_os_config] returns, the reserved key holds a
    list, and the identifiers of the non-empty layers occur in it in
    application order, whatever else the layers put under that key. *)
Theorem provenance_keeps_engine_labels (h : host) (root : path) (m : dict)
  (E : value) :
  load h root = Ok m ->
  overrides h = Ok E ->
  keys_unique (collect h (pkg_defaults_dir h)) ->
  keys_unique (collect h (user_root h)) ->
  keys_unique (collect h (ws_dir root)) ->
  exists l,
    dict_get PROVENANCE m = Some (VList l) /\
    sublist (contributors
               [(collect h (pkg_defaults_dir h), "package");
                (collect h (user_root h), path_str (user_root h));
                (collect h (ws_dir root), path_str (ws_dir root));
                (E, "env")]) l.
Proof.
  intros Hload HE Up Uu Uw.
  apply load_Ok in Hload as (m1 & m2 & m3 & E' & H1 & H2 & H3 & HE' & H4).
  rewrite HE in HE'. injection HE' as <-.
  pose proof (overrides_keys_unique json_loads h E HE) as Ue.
  destruct (apply_layer_provenance _ "package" [(PROVENANCE, VList [])] []
              eq_refl Up) as [F1 B1].
  destruct (F1 (B1 _ H1)) as (m1' & e1 & H1' & P1).
  rewrite H1 in H1'. injection H1' as <-.
  destruct (apply_layer_provenance _ (path_str (user_root h)) m1 _ P1 Uu) as [F2 B2].
  destruct (F2 (B2 _ H2)) as (m2' & e2 & H2' & P2).
  rewrite H2 in H2'. injection H2' as <-.
  destruct (apply_layer_provenance _ (path_str (ws_dir root)) m2 _ P2 Uw) as [F3 B3].
  destruct (F3 (B3 _ H3)) as (m3' & e3 & H3' & P3).
  rewrite H3 in H3'. injection H3' as <-.
  destruct (apply_layer_provenance _ "env" m3 _ P3 Ue) as [F4 B4].
  destruct (F4 (B4 _ H4)) as (m4' & e4 & H4' & P4).
  rewrite H4 in H4'. injection H4' as <-.
  eexists. split; [exact P4|]. cbn [contributors app]. rewrite app_nil_r.
  rewrite <- !app_assoc.
  do 3 (apply sublist_inserts_l, sublist_app; [reflexivity|]).
  apply sublist_inserts_l. reflexivity.
Qed.

Lemma keys_dict_set_elem (k k' : string) (v : value) (d : dict) :
  k' ∈ keys (dict_set k v d) <-> k' ∈ keys d \/ k' = k.
Proof.
  rewrite keys_dict_set. destruct (dict_get k d) as [old|] eqn:Hget.
  - split; [tauto|]. intros [H | ->]; [done|].
    eapply elem_keys, dict_get_Some_elem, Hget.
  - by rewrite elem_of_app, list_elem_of_singleton.
Qed.

Lemma keys_deep_merge_elem (k : string) (base incoming : dict) :
  k ∈ keys (_deep_merge base incoming) <-> k ∈ keys base \/ k ∈ keys incoming.
Proof.
  revert base. induction incoming as [|[k' v'] rest IH]; intros base.
  - rewrite deep_merge_nil. simpl. rewrite elem_of_nil. tauto.
  - rewrite deep_merge_cons, IH, keys_dict_set_elem. simpl. rewrite elem_of_cons. tauto.
Qed.

Lemma apply_layer_keys (cfg : value) (label : string) (merged m' : dict) (k : string) :
  apply_layer cfg label merged = Ok m' ->
  k ∈ keys m' <-> k ∈ keys merged \/ k ∈ layer_keys cfg.
Proof.
  intros Hok.
  apply apply_layer_Ok in Hok as [[Hf ->] | (d & l & _ & -> & Hp & ->)].
  - destruct cfg as [ | | | | | |[|e d]]; simpl; try discriminate Hf;
      rewrite elem_of_nil; tauto.
  - rewrite keys_dict_set_elem, keys_deep_merge_elem. simpl.
    split; [|tauto]. intros [H | ->]; [done|].
    apply keys_deep_merge_elem. eapply elem_keys, dict_get_Some_elem, Hp.
Qed.

(** X14.  The top-level keys of a returned mapping are the reserved key and
    the top-level keys of the four layers, and nothing else. *)
Theorem load_result_keys (h : host) (root : path) (m : dict) (E : value) (k : string) :
  load h root = Ok m ->
  overrides h = Ok E ->
  k ∈ keys m <->
  k = PROVENANCE \/
  k ∈ layer_keys (collect h (pkg_defaults_dir h)) \/
  k ∈ layer_keys (collect h (user_root h)) \/
  k ∈ layer_keys (collect h (ws_dir root)) \/
  k ∈ layer_keys E.
Proof.
  intros Hload HE.
  apply load_Ok in Hload as (m1 & m2 & m3 & E' & H1 & H2 & H3 & HE' & H4).
  rewrite HE in HE'. injection HE' as <-.
  rewrite (apply_layer_keys _ _ _ _ k H4), (apply_layer_keys _ _ _ _ k H3),
    (apply_layer_keys _ _ _ _ k H2), (apply_layer_keys _ _ _ _ k H1).
  simpl. rewrite list_elem_of_singleton. tauto.
Qed.

(** *** Well-formed results *)

Hypothesis json_loads_wf : forall text v, json_loads text = Parsed v -> wf v.
Hypothesis yaml_wf : forall safe_load text v,
  yaml = Some safe_load -> safe_load text = Parsed v -> wf v.

Lemma parse_file_wf (h : host) (parser : string -> parsed) (or_empty : bool) (p : path) :
  (forall text v, parser text = Parsed v -> wf v) ->
  wf (parse_file path_str h parser or_empty p).
Proof.
  intros Hparser. unfold parse_file.
  assert (Herr : forall msg, wf (load_error p msg)).
  { intros msg. simpl. repeat split; apply NoDup_singleton. }
  destruct (read_text path_str h p) as [text|msg]; [|apply Herr].
  destruct (parser text) as [v|msg] eqn:Hv; [|apply Herr].
  destruct (or_empty && negb (truthy v)); [|by apply (Hparser text)].
  simpl. split; [apply NoDup_nil_2 | done].
Qed.

Lemma collect_wf (h : host) (dir_path : path) : wf (collect h dir_path).
Proof.
  assert (Hempty : wf (VDict [])) by (simpl; split; [apply NoDup_nil_2 | done]).
  assert (Hfile : forall p, wf (_load_file json_loads yaml path_str h p)).
  { intros p. unfold _load_file.
    destruct (negb (path_exists h p)); [done|].
    destruct yaml as [safe_load|] eqn:Hy.
    - repeat case_match; try done; apply parse_file_wf; eauto.
    - case_match; [apply parse_file_wf; eauto | done]. }
  unfold _collect_layer_config.
  induction CONFIG_FILENAMES as [|name rest IH]; simpl; [done|].
  by destruct (path_exists h (dir_path ++ [name])).
Qed.

Lemma coerce_wf (raw : string) (c : value) : coerce json_loads raw = Ok c -> wf c.
Proof.
  unfold coerce. destruct (isdigit raw).
  - destruct (int_of_string raw); simpl; intros H; [by injection H as <- | done].
  - destruct (_ || _); [intros H; by injection H as <-|].
    destruct (json_loads raw) as [v|msg] eqn:Hv; intros H; injection H as <-;
      [by apply (json_loads_wf raw) | done].
Qed.

Lemma descend_wf (parts : list string) (finish : value -> result value)
  (target v : value) :
  (forall t v', wf t -> finish t = Ok v' -> wf v') ->
  wf target -> descend parts finish target = Ok v -> wf v.
Proof.
  intros Hfinish. revert target v.
  induction parts as [|p rest IH]; intros target v Hwf; simpl; [by apply Hfinish|].
  destruct target as [ | | | | | |d]; try discriminate.
  destruct (descend rest finish _) as [inner'|] eqn:Hin; simpl; [|discriminate].
  intros H. injection H as <-. apply wf_dict_set; [done|].
  apply IH in Hin; [done|].
  destruct (dict_get p d) as [x|] eqn:Hx; [by apply (wf_dict_get d p)|].
  simpl. split; [apply NoDup_nil_2 | done].
Qed.

Lemma env_loop_wf (table : list (string * string)) (ov E : value) :
  wf ov -> env_loop json_loads table ov = Ok E -> wf E.
Proof.
  revert ov. induction table as [|[key raw] rest IH]; intros ov Hwf; cbn [env_loop].
  - intros H. by injection H as <-.
  - destruct (env_step json_loads ov (key, raw)) as [ov'|] eqn:Hstep;
      cbn [mbind result_bind]; [|discriminate].
    apply IH. unfold env_step in Hstep.
    destruct (negb (String.prefix PREFIX key)); [by injection Hstep as <-|].
    apply descend_wf in Hstep; [done| |done].
    intros t v' Ht. destruct (coerce json_loads raw) as [c|] eqn:Hc; simpl;
      [|discriminate].
    destruct t as [ | | | | | |d]; try discriminate. intros H. injection H as <-.
    apply wf_dict_set; [done | by apply (coerce_wf raw)].
Qed.

Lemma apply_layer_wf (cfg : value) (label : string) (merged m' : dict) :
  wf (VDict merged) -> wf cfg -> apply_layer cfg label merged = Ok m' ->
  wf (VDict m').
Proof.
  intros Hm Hc Hok.
  apply apply_layer_Ok in Hok as [[_ ->] | (d & l & _ & -> & Hp & ->)]; [done|].
  pose proof (merge_into_wf (VDict d) Hc merged Hm) as Hwf.
  change (merge_into (VDict d) merged) with (_deep_merge merged d) in Hwf.
  apply wf_dict_set; [done|].
  apply wf_list_iff, Forall_app. split.
  - apply wf_list_iff. by apply (wf_dict_get (_deep_merge merged d) PROVENANCE).
  - by repeat constructor.
Qed.

(** X15.  When the parsers return values in which no mapping holds a key
    twice, so does [load_agent_os_config]: the returned mapping holds no key
    twice, at any depth. *)
Theorem load_result_wf (h : host) (root : path) (m : dict) :
  load h root = Ok m -> wf (VDict m).
Proof.
  intros Hload.
  apply load_Ok in Hload as (m1 & m2 & m3 & E & H1 & H2 & H3 & HE & H4).
  assert (H0 : wf (VDict [(PROVENANCE, VList [])])).
  { simpl. repeat split; apply NoDup_singleton. }
  apply (apply_layer_wf _ _ _ _ H0 (collect_wf _ _)) in H1.
  apply (apply_layer_wf _ _ _ _ H1 (collect_wf _ _)) in H2.
  apply (apply_layer_wf _ _ _ _ H2 (collect_wf _ _)) in H3.
  apply (apply_layer_wf _ _ _ _ H3) in H4; [done|].
  apply (env_loop_wf (environ h) (VDict [])); [|exact HE].
  simpl. split; [apply NoDup_nil_2 | done].
Qed.

End Layers.

Section Reports.

Variable json_loads : string -> parsed.
Variable yaml : option (string -> parsed).
Variable path_str : path -> string.
Variable path_of_string : string -> path.

Local Abbreviation collect := (_collect_layer_config json_loads yaml path_str).
Local Abbreviation overrides := (_env_overrides json_loads).
Local Abbreviation user_root := (_platform_user_config_root path_of_string).
Local Abbreviation load := (load_agent_os_config json_loads yaml path_str path_of_string).


(** The user directory and the workspace directory are never the same path,
    on any platform and for any workspace root. *)
Lemma user_root_is_not_workspace_dir (h : host) (root : path) :
  user_root h <> ws_dir root.
Proof.
  intros Heq. apply (f_equal (fun p => List.last p EmptyString)) in Heq.
  unfold ws_dir in Heq. rewrite last_last in Heq.
  unfold _platform_user_config_root in Heq.
  assert (Hlast : forall p q : path, List.last (p ++ q ++ ["agent-os"]) EmptyString = "agent-os").
  { intros p q. by rewrite app_assoc, last_last. }
  destruct (String.eqb (os_name h) "nt").
  - rewrite (Hlast _ ["EvoSuite"]) in Heq. discriminate Heq.
  - destruct (String.eqb (sys_platform h) "darwin").
    + rewrite (Hlast _ ["Library"; "Application Support"; "EvoSuite"]) in Heq.
      discriminate Heq.
    + rewrite (Hlast _ [".config"; "evosuite"]) in Heq. discriminate Heq.
Qed.

End Reports.

(** *** The further properties at concrete inputs *)

Lemma yaml_candidate_without_parser_witness :
  path_exists two_candidates_host (["w"; ".agent-os"] ++ ["config.json"]) = true /\
  sample_collect two_candidates_host ["w"; ".agent-os"] = VDict [].
Proof.
  split; [reflexivity|].
  apply (yaml_candidate_without_parser sample_loads None posix_str);
    [reflexivity | left; reflexivity].
Defined.

Lemma load_returns_only_if_witness :
  exists E,
    sample_overrides layered_host = Ok E /\
    mergeable (sample_collect layered_host (pkg_defaults_dir layered_host)) /\
    mergeable (sample_collect layered_host
                 (_platform_user_config_root posix_path layered_host)) /\
    mergeable (sample_collect layered_host (ws_dir ["w"])) /\
    mergeable E.
Proof.
  apply (load_returns_only_if sample_loads None posix_str posix_path layered_host ["w"]
           [("_provenance", VList [VStr "package"; VStr "/w/.agent-os"; VStr "env"]);
            ("level", VStr "TRACE")]).
  - vm_compute. apply (bool_decide_unpack _). vm_compute. exact I.
  - vm_compute. apply (bool_decide_unpack _). vm_compute. exact I.
  - vm_compute. apply (bool_decide_unpack _). vm_compute. exact I.
  - reflexivity.
Defined.

Lemma provenance_keeps_engine_labels_witness :
  exists l,
    dict_get PROVENANCE [("_provenance", VList [VStr "x"; VStr "package"])]
    = Some (VList l) /\
    sublist [VStr "package"] l.
Proof.
  apply (provenance_keeps_engine_labels sample_loads None posix_str posix_path
           reserved_package_host ["w"] _ (VDict [])); try reflexivity;
    vm_compute; apply (bool_decide_unpack _); vm_compute; exact I.
Defined.

Lemma load_result_keys_witness :
  "level" ∈ keys [("_provenance", VList [VStr "package"; VStr "/w/.agent-os"; VStr "env"]);
                  ("level", VStr "TRACE")].
Proof.
  apply (load_result_keys sample_loads None posix_str posix_path layered_host ["w"]
           _ (VDict [("level", VStr "TRACE")]) "level"); [reflexivity ..|].
  right. left. vm_compute. apply list_elem_of_here.
Defined.

Lemma sample_loads_wf (text : string) (v : value) :
  sample_loads text = Parsed v -> wf v.
Proof.
  unfold sample_loads. cbn [List.find sample_texts fst snd].
  repeat (destruct (String.eqb _ text); [intros H; injection H as <-; simpl;
    repeat split; apply NoDup_singleton || apply NoDup_nil_2|]).
  discriminate.
Qed.

Lemma load_result_wf_witness :
  wf (VDict [("_provenance", VList [VStr "package"; VStr "/w/.agent-os"; VStr "env"]);
             ("level", VStr "TRACE")]).
Proof.
  apply (load_result_wf sample_loads None posix_str posix_path sample_loads_wf
           (fun f text v H => ltac:(discriminate H))
           layered_host ["w"]).
  reflexivity.
Defined.


(** ** The [config] command *)

Lemma display_get (k : string) (d : dict) :
  dict_get k (display_cfg d) = if String.prefix "_" k then None else dict_get k d.
Proof.
  induction d as [|[k' v'] d IH]; simpl; [by destruct (String.prefix "_" k)|].
  destruct (String.eqb_spec k k') as [-> | Hne].
  - destruct (String.prefix "_" k') eqn:Hk'; simpl; [exact IH|].
    by rewrite String.eqb_refl.
  - destruct (String.prefix "_" k') eqn:Hk'; simpl; [exact IH|].
    by destruct (String.eqb_spec k k').
Qed.

Lemma display_set_hidden (k : string) (v : value) (d : dict) :
  String.prefix "_" k = true -> display_cfg (dict_set k v d) = display_cfg d.
Proof.
  intros Hk. induction d as [|[k' v'] d IH]; simpl; [by rewrite Hk|].
  case_eqb; simpl; [by rewrite Hk | by rewrite IH].
Qed.

Lemma display_set_visible (k : string) (v : value) (d : dict) :
  String.prefix "_" k = false ->
  display_cfg (dict_set k v d) = dict_set k v (display_cfg d).
Proof.
  intros Hk. induction d as [|[k' v'] d IH]; simpl; [by rewrite Hk|].
  case_eqb; simpl.
  - rewrite Hk. simpl. by rewrite String.eqb_refl.
  - destruct (String.prefix "_" k') eqn:Hk'; simpl; [done|].
    rewrite IH. by destruct (String.eqb_spec k k').
Qed.

Lemma display_deep_merge (base incoming : dict) :
  display_cfg (_deep_merge base incoming)
  = _deep_merge (display_cfg base) (display_cfg incoming).
Proof.
  revert base. induction incoming as [|[k v] rest IH]; intros base; [done|].
  rewrite deep_merge_cons, IH. simpl.
  destruct (String.prefix "_" k) eqn:Hk; simpl.
  - by rewrite display_set_hidden.
  - rewrite deep_merge_cons, display_set_visible, display_get, Hk by done. done.
Qed.

Lemma apply_layer_display (cfg : value) (label : string) (merged m' : dict) :
  apply_layer cfg label merged = Ok m' ->
  display_cfg m' = _deep_merge (display_cfg merged) (visible cfg).
Proof.
  intros Hok.
  apply apply_layer_Ok in Hok as [[Hf ->] | (d & l & _ & -> & Hp & ->)].
  - destruct cfg as [ | | | | | |[|e d]]; try done.
  - rewrite display_set_hidden by done. apply display_deep_merge.
Qed.

(** X18.  What [config] shows never has a key that starts with an
    underscore, so neither the provenance list nor an [_error] marker; every
    other key is shown with its value. *)
Theorem display_hides_internal_keys (cfg : dict) (k : string) :
  dict_get k (display_cfg cfg) = if String.prefix "_" k then None else dict_get k cfg.
Proof. apply display_get. Qed.

(** X19.  Hiding the internal keys commutes with merging: the shown part of
    a merge is the merge of the shown parts. *)
Theorem display_commutes_with_merge (base incoming : dict) :
  display_cfg (_deep_merge base incoming)
  = _deep_merge (display_cfg base) (display_cfg incoming).
Proof. apply display_deep_merge. Qed.

Section ConfigCommand.

Variable json_loads : string -> parsed.
Variable yaml : option (string -> parsed).
Variable path_str : path -> string.
Variable path_of_string : string -> path.

Local Abbreviation collect := (_collect_layer_config json_loads yaml path_str).
Local Abbreviation overrides := (_env_overrides json_loads).
Local Abbreviation user_root := (_platform_user_config_root path_of_string).
Local Abbreviation command := (config_command json_loads yaml path_str path_of_string).

Lemma command_Ok (h : host) (workspace : path) (flag : bool) (shown : option value)
  (out : dict) :
  command h workspace flag = Ok (shown, out) ->
  exists m,
    load_agent_os_config json_loads yaml path_str path_of_string h workspace = Ok m /\
    out = display_cfg m.
Proof.
  unfold config_command.
  destruct (load_agent_os_config _ _ _ _ h workspace) as [m|]; simpl; [|discriminate].
  intros H. injection H as _ <-. eauto.
Qed.

(** X20.  The configuration that [config] prints is the merge into the
    empty mapping, in precedence order, of the shown parts of the four
    layers. *)
Theorem config_shows_merged_layers (h : host) (workspace : path) (flag : bool)
  (shown : option value) (out : dict) (E : value) :
  command h workspace flag = Ok (shown, out) ->
  overrides h = Ok E ->
  out = _deep_merge
          (_deep_merge
             (_deep_merge
                (_deep_merge [] (visible (collect h (pkg_defaults_dir h))))
                (visible (collect h (user_root h))))
             (visible (collect h (ws_dir workspace))))
          (visible E).
Proof.
  intros Hcmd HE. apply command_Ok in Hcmd as (m & Hload & ->).
  apply load_Ok in Hload as (m1 & m2 & m3 & E' & H1 & H2 & H3 & HE' & H4).
  rewrite HE in HE'. injection HE' as <-.
  apply apply_layer_display in H1, H2, H3, H4.
  by rewrite H4, H3, H2, H1.
Qed.


End ConfigCommand.

(** ** The [init] command *)

Lemma child_set_child_eq (name : string) (n : node) (children : list (string * node)) :
  child name (set_child name n children) = Some n.
Proof.
  induction children as [|[name' n'] rest IH]; simpl; case_eqb; simpl; case_eqb;
    congruence.
Qed.

Lemma child_set_child_ne (name name' : string) (n : node)
  (children : list (string * node)) :
  name <> name' -> child name' (set_child name n children) = child name' children.
Proof.
  intros Hne. induction children as [|[k x] rest IH]; simpl; case_eqb; simpl;
    case_eqb; congruence.
Qed.

Lemma set_child_id (name : string) (n : node) (children : list (string * node)) :
  child name children = Some n -> set_child name n children = children.
Proof.
  induction children as [|[k x] rest IH]; simpl; [discriminate|].
  case_eqb; intros H; [congruence | by rewrite IH].
Qed.

Lemma child_app_new (name name' : string) (n : node) (children : list (string * node)) :
  child name children = None ->
  child name' (children ++ [(name, n)]) =
  if String.eqb name' name then Some n else child name' children.
Proof.
  induction children as [|[k x] rest IH]; simpl; [done|].
  case_eqb; intros H; try done; rewrite IH by done; case_eqb; congruence.
Qed.

Lemma same_kind_refl (x : node) : same_kind x x.
Proof. by destruct x. Qed.

Lemma same_kind_trans (x y z : node) : same_kind x y -> same_kind y z -> same_kind x z.
Proof. destruct x, y, z; simpl; congruence. Qed.

Section Put.

Variable existing : node -> outcome node.
Variable fresh : node.

(** Whatever was there before is there afterwards, as the same file or still
    as a directory. *)
Lemma fs_put_frame (p : path) :
  (forall x y, existing x = Done y -> y = x) ->
  forall n n', fs_put existing fresh n p = Done n' ->
  forall q x, fs_lookup n q = Some x ->
  exists y, fs_lookup n' q = Some y /\ same_kind x y.
Proof.
  intros Hex. induction p as [|name rest IH]; intros n n' Hput q x Hq.
  - simpl in Hput. apply Hex in Hput. subst n'.
    exists x. split; [done | apply same_kind_refl].
  - simpl in Hput. destruct n as [ | |children]; try discriminate.
    destruct (child name children) as [c0|] eqn:Hc.
    + destruct (fs_put existing fresh c0 rest) as [c1|] eqn:Hrec; simpl in Hput;
        [|discriminate].
      injection Hput as <-. destruct q as [|name' q'].
      * simpl in Hq. injection Hq as <-. by eexists.
      * simpl in Hq |- *. destruct (String.eqb_spec name name') as [<- | Hne].
        -- rewrite child_set_child_eq. rewrite Hc in Hq. by apply (IH c0).
        -- rewrite child_set_child_ne by done.
           destruct (child name' children); [|discriminate].
           exists x. split; [done | apply same_kind_refl].
    + destruct rest; [|discriminate]. injection Hput as <-.
      destruct q as [|name' q'].
      * simpl in Hq. injection Hq as <-. by eexists.
      * simpl in Hq |- *. rewrite child_app_new by done.
        destruct (String.eqb_spec name' name) as [-> | Hne];
          [by rewrite Hc in Hq|].
        destruct (child name' children); [|discriminate].
        exists x. split; [done | apply same_kind_refl].
Qed.

Lemma fs_put_lookup (p : path) :
  forall n n', fs_put existing fresh n p = Done n' ->
  match fs_lookup n p with
  | Some x => exists y, existing x = Done y /\ fs_lookup n' p = Some y
  | None => fs_lookup n' p = Some fresh
  end.
Proof.
  induction p as [|name rest IH]; intros n n' Hput; simpl in *.
  - eauto.
  - destruct n as [ | |children]; try discriminate.
    destruct (child name children) as [c0|] eqn:Hc.
    + destruct (fs_put existing fresh c0 rest) as [c1|] eqn:Hrec; simpl in Hput;
        [|discriminate].
      injection Hput as <-. simpl. rewrite child_set_child_eq. by apply IH.
    + destruct rest; [|discriminate]. injection Hput as <-. simpl.
      rewrite child_app_new by done. by rewrite String.eqb_refl.
Qed.

Lemma fs_put_unchanged (p : path) :
  forall n x, fs_lookup n p = Some x -> existing x = Done x ->
  fs_put existing fresh n p = Done n.
Proof.
  induction p as [|name rest IH]; intros n x Hp Hx; simpl in *.
  - by injection Hp as ->.
  - destruct n as [ | |children]; try discriminate.
    destruct (child name children) as [c0|] eqn:Hc; [|discriminate].
    rewrite (IH c0 x) by done. simpl. by rewrite set_child_id.
Qed.

End Put.

Lemma mkdir_frame (p : path) (n n' : node) (q : path) (x : node) :
  fs_mkdir n p = Done n' -> fs_lookup n q = Some x ->
  exists y, fs_lookup n' q = Some y /\ same_kind x y.
Proof.
  intros Hmk. unfold fs_mkdir in Hmk.
  refine (fs_put_frame _ _ p _ n n' Hmk q x).
  intros [ | |c] y H; try discriminate H. by injection H as <-.
Qed.

Lemma mkdir_makes_dir (p : path) (n n' : node) :
  fs_mkdir n p = Done n' -> exists c, fs_lookup n' p = Some (Dir c).
Proof.
  intros Hmk. apply fs_put_lookup in Hmk.
  destruct (fs_lookup n p) as [x|]; [|by eexists].
  destruct Hmk as (y & Hy & Hl). destruct x; try discriminate Hy.
  injection Hy as <-. by eexists.
Qed.

Lemma mkdir_existing (p : path) (n : node) (c : list (string * node)) :
  fs_lookup n p = Some (Dir c) -> fs_mkdir n p = Done n.
Proof. intros H. by apply (fs_put_unchanged _ _ p n (Dir c)). Qed.

Lemma mkdir_each_frame (dir_path : path) (names : list string) :
  forall fs fs' q x,
    mkdir_each fs dir_path names = Done fs' -> fs_lookup fs q = Some x ->
    exists y, fs_lookup fs' q = Some y /\ same_kind x y.
Proof.
  induction names as [|name rest IH]; intros fs fs' q x Hmk Hq; simpl in Hmk.
  - injection Hmk as <-. exists x. split; [done | apply same_kind_refl].
  - destruct (fs_mkdir fs (dir_path ++ [name])) as [fs1|] eqn:H1; simpl in Hmk;
      [|discriminate].
    destruct (mkdir_frame _ _ _ q x H1 Hq) as (y & Hy & Hk).
    destruct (IH fs1 fs' q y Hmk Hy) as (z & Hz & Hk').
    exists z. split; [done | by apply (same_kind_trans x y z)].
Qed.

Lemma mkdir_each_makes_dirs (dir_path : path) (names : list string) :
  forall fs fs' name,
    mkdir_each fs dir_path names = Done fs' -> name ∈ names ->
    exists c, fs_lookup fs' (dir_path ++ [name]) = Some (Dir c).
Proof.
  induction names as [|name0 rest IH]; intros fs fs' name Hmk Hin; simpl in Hmk.
  - by apply elem_of_nil in Hin.
  - destruct (fs_mkdir fs (dir_path ++ [name0])) as [fs1|] eqn:H1; simpl in Hmk;
      [|discriminate].
    apply elem_of_cons in Hin as [-> | Hin]; [|by apply (IH fs1)].
    destruct (mkdir_makes_dir _ _ _ H1) as (c & Hc).
    destruct (mkdir_each_frame _ _ _ _ _ _ Hmk Hc) as ([ | |c'] & Hy & Hk);
      try done. by eexists.
Qed.

Lemma mkdir_each_existing (dir_path : path) (names : list string) (fs : node) :
  (forall name, name ∈ names ->
     exists c, fs_lookup fs (dir_path ++ [name]) = Some (Dir c)) ->
  mkdir_each fs dir_path names = Done fs.
Proof.
  induction names as [|name rest IH]; intros H; simpl; [done|].
  destruct (H name) as (c & Hc); [apply list_elem_of_here|].
  rewrite (mkdir_existing _ _ _ Hc). simpl. apply IH.
  intros name' Hin. apply H. by apply list_elem_of_further.
Qed.

(** What [init] leaves behind, step by step. *)
Lemma init_command_Done (fs fs' : node) (workspace : path) :
  init_command fs workspace = Done fs' ->
  exists fs1 fs2,
    fs_mkdir fs (workspace ++ [".agent-os"]) = Done fs1 /\
    mkdir_each fs1 (workspace ++ [".agent-os"]) INIT_SUBDIRS = Done fs2 /\
    (node_exists fs2 (workspace ++ [".agent-os"] ++ ["config.yaml"]) = true /\ fs' = fs2 \/
     node_exists fs2 (workspace ++ [".agent-os"] ++ ["config.yaml"]) = false /\
     fs_put (fun x => Done x) (File CONFIG_CONTENT) fs2
       (workspace ++ [".agent-os"] ++ ["config.yaml"]) = Done fs').
Proof.
  unfold init_command. cbv zeta.
  destruct (fs_mkdir fs (workspace ++ [".agent-os"])) as [fs1|] eqn:H1;
    cbn [and_then]; [|discriminate].
  destruct (mkdir_each fs1 _ INIT_SUBDIRS) as [fs2|] eqn:H2; cbn [and_then];
    [|discriminate].
  rewrite <- app_assoc.
  destruct (node_exists fs2 _) eqn:Hex; cbn [negb]; intros H.
  - injection H as <-. exists fs1, fs2. by eauto.
  - exists fs1, fs2. split_and!; [done..|]. right. split; [done|].
    rewrite <- H. unfold fs_write_text.
    assert (Hnone : fs_lookup fs2 (workspace ++ [".agent-os"] ++ ["config.yaml"]) = None).
    { unfold node_exists in Hex. by destruct (fs_lookup fs2 _). }
    clear -Hnone. revert Hnone. generalize (workspace ++ [".agent-os"] ++ ["config.yaml"]).
    intros p. revert fs2. induction p as [|name rest IH]; intros n Hn; [discriminate Hn|].
    simpl in *. destruct n as [ | |children]; try done.
    destruct (child name children) as [c0|]; [|done].
    by rewrite (IH c0).
Qed.

Lemma fs_put_elsewhere (existing : node -> outcome node) (fresh : node) (p : path) :
  (forall x y, existing x = Done y -> y = x) ->
  (forall name rest, fs_lookup fresh (name :: rest) = None) ->
  forall n n' q,
    fs_put existing fresh n p = Done n' ->
    fs_lookup n q = None -> q <> p -> fs_lookup n' q = None.
Proof.
  intros Hex Hfresh. induction p as [|name rest IH]; intros n n' q Hput Hq Hne.
  - simpl in Hput. apply Hex in Hput. by subst.
  - simpl in Hput. destruct n as [ | |children]; try discriminate.
    destruct q as [|name' q']; [discriminate Hq|]. simpl in Hq.
    destruct (child name children) as [c0|] eqn:Hc.
    + destruct (fs_put existing fresh c0 rest) as [c1|] eqn:Hrec; simpl in Hput;
        [|discriminate].
      injection Hput as <-. simpl.
      destruct (String.eqb_spec name name') as [<- | Hn].
      * rewrite child_set_child_eq. rewrite Hc in Hq.
        apply (IH c0); [done | done | congruence].
      * by rewrite child_set_child_ne.
    + destruct rest; [|discriminate]. injection Hput as <-. simpl.
      rewrite child_app_new by done.
      destruct (String.eqb_spec name' name) as [-> | Hn]; [|done].
      destruct q' as [|a q'']; [congruence | apply Hfresh].
Qed.

Lemma fs_lookup_snoc (p : path) (name : string) :
  forall n,
    fs_lookup n (p ++ [name]) =
    match fs_lookup n p with
    | Some (Dir ch) => child name ch
    | _ => None
    end.
Proof.
  induction p as [|a p IH]; intros n; simpl.
  - destruct n as [ | |ch]; try done. by destruct (child name ch).
  - destruct n as [ | |ch]; try done. destruct (child a ch); [apply IH | done].
Qed.

(** [mkdir] of an entry of a directory that is there. *)
Lemma mkdir_entry (q : path) (name : string) :
  forall n ch,
    fs_lookup n q = Some (Dir ch) ->
    match child name ch with
    | None =>
        exists n', fs_mkdir n (q ++ [name]) = Done n' /\
                   fs_lookup n' q = Some (Dir (ch ++ [(name, Dir [])]))
    | Some (Dir _) => fs_mkdir n (q ++ [name]) = Done n
    | Some _ => fs_mkdir n (q ++ [name]) = Failed FileExistsError
    end.
Proof.
  unfold fs_mkdir. induction q as [|a q' IH]; intros n ch Hq.
  - simpl in Hq. injection Hq as ->. simpl.
    destruct (child name ch) as [[ | |c]|] eqn:Hc; simpl; try done.
    + by rewrite set_child_id.
    + by eexists.
  - simpl in Hq |- *. destruct n as [ | |ch0]; try discriminate.
    destruct (child a ch0) as [c0|] eqn:Ha; [|discriminate].
    pose proof (IH c0 ch Hq) as Hrec.
    destruct (child name ch) as [[ | |c]|] eqn:Hc.
    + by rewrite Hrec.
    + by rewrite Hrec.
    + rewrite Hrec. simpl. by rewrite set_child_id.
    + destruct Hrec as (c1 & H1 & Hl). rewrite H1. simpl.
      eexists. split; [reflexivity|]. simpl. by rewrite child_set_child_eq.
Qed.

Lemma mkdir_without_parent (q : path) (name : string) :
  forall n,
    (forall ch, fs_lookup n q <> Some (Dir ch)) ->
    exists e, fs_mkdir n (q ++ [name]) = Failed e.
Proof.
  unfold fs_mkdir. induction q as [|a q' IH]; intros n Hq.
  - simpl in Hq. destruct n as [ | |ch]; simpl; try by eexists.
    by destruct (Hq ch).
  - simpl in Hq |- *. destruct n as [ | |ch0]; try by eexists.
    destruct (child a ch0) as [c0|] eqn:Ha.
    + destruct (IH c0 Hq) as (e & He). rewrite He. by eexists.
    + destruct (q' ++ [name]) eqn:Happ; [by destruct q'|]. by eexists.
Qed.

(** Writing an entry that is not there into a directory that is. *)
Lemma write_new_entry (text : string) (q : path) (name : string) :
  forall n ch,
    fs_lookup n q = Some (Dir ch) -> child name ch = None ->
    exists n', fs_write_text text n (q ++ [name]) = Done n'.
Proof.
  unfold fs_write_text. induction q as [|a q' IH]; intros n ch Hq Hc.
  - simpl in Hq. injection Hq as ->. simpl. rewrite Hc. by eexists.
  - simpl in Hq |- *. destruct n as [ | |ch0]; try discriminate.
    destruct (child a ch0) as [c0|] eqn:Ha; [|discriminate].
    destruct (IH c0 ch Hq Hc) as (c1 & H1). rewrite H1. by eexists.
Qed.

Lemma free_or_dir_added (ch : list (string * node)) (name0 name : string) :
  child name0 ch = None ->
  free_or_dir (ch ++ [(name0, Dir [])]) name <-> free_or_dir ch name.
Proof.
  intros Hc. unfold free_or_dir. rewrite child_app_new by done.
  destruct (String.eqb_spec name name0) as [-> | Hne]; [|done].
  split; [intros _; by left | intros _; right; by eexists].
Qed.

Lemma mkdir_each_succeeds_iff (dir_path : path) (names : list string) :
  forall fs ch,
    fs_lookup fs dir_path = Some (Dir ch) ->
    (exists fs', mkdir_each fs dir_path names = Done fs') <->
    (forall name, name ∈ names -> free_or_dir ch name).
Proof.
  induction names as [|name0 rest IH]; intros fs ch Hdir; simpl.
  - split; [intros _ name H; by apply elem_of_nil in H | by eexists].
  - pose proof (mkdir_entry dir_path name0 fs ch Hdir) as Hentry.
    destruct (child name0 ch) as [[ | |c]|] eqn:Hc.
    + rewrite Hentry. simpl. split; [intros (fs' & H); discriminate H|].
      intros Hall. destruct (Hall name0 (list_elem_of_here _ _)) as [H | (c & H)];
        congruence.
    + rewrite Hentry. simpl. split; [intros (fs' & H); discriminate H|].
      intros Hall. destruct (Hall name0 (list_elem_of_here _ _)) as [H | (c & H)];
        congruence.
    + rewrite Hentry. simpl. rewrite (IH fs ch Hdir). split.
      * intros Hall name Hin. apply elem_of_cons in Hin as [-> | Hin]; [|by apply Hall].
        right. by eexists.
      * intros Hall name Hin. apply Hall. by apply list_elem_of_further.
    + destruct Hentry as (fs1 & H1 & Hl). rewrite H1. simpl.
      rewrite (IH fs1 _ Hl). split.
      * intros Hall name Hin. apply elem_of_cons in Hin as [-> | Hin]; [by left|].
        by apply (free_or_dir_added ch name0 name Hc), Hall.
      * intros Hall name Hin. apply (free_or_dir_added ch name0 name Hc), Hall.
        by apply list_elem_of_further.
Qed.

(** The last step of [init] cannot fail. *)
Lemma init_config_step (fs2 : node) (dir_path : path) (inner : list (string * node)) :
  fs_lookup fs2 dir_path = Some (Dir inner) ->
  exists fs',
    (if negb (node_exists fs2 (dir_path ++ ["config.yaml"]))
     then fs_write_text CONFIG_CONTENT fs2 (dir_path ++ ["config.yaml"])
     else Done fs2) = Done fs'.
Proof.
  intros Hdir. unfold node_exists. rewrite fs_lookup_snoc, Hdir.
  destruct (child "config.yaml" inner) as [x|] eqn:Hc; cbn [negb]; [by eexists|].
  by apply (write_new_entry _ _ _ _ inner).
Qed.

(** X22.  [init] succeeds exactly when the workspace is a directory in which
    [.agent-os] is absent or a directory, and in which, when [.agent-os] is
    there, [specs], [tasks] and [standards] are each absent or a
    directory. *)
Theorem init_succeeds_iff (fs : node) (workspace : path) :
  (exists fs', init_command fs workspace = Done fs') <->
  (exists ch,
     fs_lookup fs workspace = Some (Dir ch) /\
     (child ".agent-os" ch = None \/
      exists inner,
        child ".agent-os" ch = Some (Dir inner) /\
        forall name, name ∈ INIT_SUBDIRS -> free_or_dir inner name)).
Proof.
  unfold init_command. cbv zeta.
  destruct (fs_lookup fs workspace) as [[ | |ch]|] eqn:Hws;
    try (destruct (mkdir_without_parent workspace ".agent-os" fs) as (e & He);
         [intros ch' Hch'; congruence|];
         rewrite He; cbn [and_then];
         split; [intros (fs' & H); discriminate H | intros (ch' & H & _); discriminate H]).
  pose proof (mkdir_entry workspace ".agent-os" fs ch Hws) as Hentry.
  assert (Hrest : forall fs1 inner,
            fs_lookup fs1 (workspace ++ [".agent-os"]) = Some (Dir inner) ->
            (exists fs', and_then (mkdir_each fs1 (workspace ++ [".agent-os"]) INIT_SUBDIRS)
               (fun fs2 =>
                  if negb (node_exists fs2 ((workspace ++ [".agent-os"]) ++ ["config.yaml"]))
                  then fs_write_text CONFIG_CONTENT fs2
                         ((workspace ++ [".agent-os"]) ++ ["config.yaml"])
                  else Done fs2) = Done fs') <->
            (forall name, name ∈ INIT_SUBDIRS -> free_or_dir inner name)).
  { intros fs1 inner Hinner.
    rewrite <- (mkdir_each_succeeds_iff _ INIT_SUBDIRS fs1 inner Hinner). split.
    - intros (fs' & H). destruct (mkdir_each fs1 _ INIT_SUBDIRS); [by eexists | discriminate H].
    - intros (fs2 & H2). rewrite H2. cbn [and_then].
      destruct (mkdir_each_frame _ _ _ _ _ _ H2 Hinner) as ([ | |inner2] & Hl & Hk);
        try done.
      by apply (init_config_step fs2 _ inner2). }
  destruct (child ".agent-os" ch) as [[ | |inner]|] eqn:Hc.
  - rewrite Hentry. cbn [and_then].
    split; [intros (fs' & H); discriminate H|].
    intros (ch' & H & [Hn | (inner & Hi & _)]); congruence.
  - rewrite Hentry. cbn [and_then].
    split; [intros (fs' & H); discriminate H|].
    intros (ch' & H & [Hn | (inner & Hi & _)]); congruence.
  - rewrite Hentry. cbn [and_then].
    rewrite (Hrest fs inner) by (by rewrite fs_lookup_snoc, Hws). split.
    + intros Hall. exists ch. split; [done|]. right. by exists inner.
    + intros (ch' & H & [Hn | (inner' & Hi & Hall)]); [congruence|].
      injection H as <-. rewrite Hc in Hi. by injection Hi as <-.
  - destruct Hentry as (fs1 & H1 & Hl). rewrite H1. cbn [and_then].
    assert (Hinner : fs_lookup fs1 (workspace ++ [".agent-os"]) = Some (Dir [])).
    { rewrite fs_lookup_snoc, Hl, child_app_new by done. by rewrite String.eqb_refl. }
    rewrite (Hrest fs1 [] Hinner). split.
    + intros _. exists ch. split; [done | by left].
    + intros _ name _. by left.
Qed.

Lemma mkdir_elsewhere (p q : path) (n n' : node) :
  fs_mkdir n p = Done n' -> fs_lookup n q = None -> q <> p -> fs_lookup n' q = None.
Proof.
  intros Hmk. refine (fs_put_elsewhere _ _ p _ _ n n' q Hmk); [|done].
  intros [ | |c] y H; try discriminate H. by injection H as <-.
Qed.

Lemma mkdir_each_elsewhere (dir_path : path) (names : list string) (q : path) :
  (forall name, name ∈ names -> q <> dir_path ++ [name]) ->
  forall fs fs',
    mkdir_each fs dir_path names = Done fs' -> fs_lookup fs q = None ->
    fs_lookup fs' q = None.
Proof.
  induction names as [|name rest IH]; intros Hne fs fs' Hmk Hq; simpl in Hmk.
  - by injection Hmk as <-.
  - destruct (fs_mkdir fs (dir_path ++ [name])) as [fs1|] eqn:H1; simpl in Hmk;
      [|discriminate].
    apply (IH (fun name' Hin => Hne name' (list_elem_of_further _ _ _ Hin)) fs1);
      [done|].
    apply (mkdir_elsewhere _ _ _ _ H1 Hq), Hne, list_elem_of_here.
Qed.

Lemma put_new_frame (fresh : node) (p : path) (n n' : node) (q : path) (x : node) :
  fs_put (fun x => Done x) fresh n p = Done n' -> fs_lookup n q = Some x ->
  exists y, fs_lookup n' q = Some y /\ same_kind x y.
Proof.
  intros Hput. refine (fs_put_frame _ _ p _ n n' Hput q x).
  intros x0 y H. by injection H as <-.
Qed.

(** X23.  [init] removes nothing and rewrites no file: every path that was
    there is there afterwards, a file with its content and a directory as a
    directory. *)
Theorem init_keeps_what_was_there (fs fs' : node) (workspace q : path) (x : node) :
  init_command fs workspace = Done fs' ->
  fs_lookup fs q = Some x ->
  exists y, fs_lookup fs' q = Some y /\ same_kind x y.
Proof.
  intros Hinit Hq.
  apply init_command_Done in Hinit as (fs1 & fs2 & H1 & H2 & Hlast).
  destruct (mkdir_frame _ _ _ q x H1 Hq) as (y1 & Hy1 & K1).
  destruct (mkdir_each_frame _ _ _ _ q y1 H2 Hy1) as (y2 & Hy2 & K2).
  destruct Hlast as [[_ ->] | [_ Hput]].
  - exists y2. split; [done | by apply (same_kind_trans x y1 y2)].
  - destruct (put_new_frame _ _ _ _ q y2 Hput Hy2) as (y3 & Hy3 & K3).
    exists y3. split; [done|].
    apply (same_kind_trans x y1 y3); [done | by apply (same_kind_trans y1 y2 y3)].
Qed.

Lemma init_result (fs fs' : node) (workspace : path) :
  init_command fs workspace = Done fs' ->
  (exists c, fs_lookup fs' (workspace ++ [".agent-os"]) = Some (Dir c)) /\
  (forall name, name ∈ INIT_SUBDIRS ->
     exists c, fs_lookup fs' ((workspace ++ [".agent-os"]) ++ [name]) = Some (Dir c)) /\
  (exists y, fs_lookup fs' (workspace ++ [".agent-os"] ++ ["config.yaml"]) = Some y) /\
  (fs_lookup fs (workspace ++ [".agent-os"] ++ ["config.yaml"]) = None ->
   fs_lookup fs' (workspace ++ [".agent-os"] ++ ["config.yaml"])
   = Some (File CONFIG_CONTENT)).
Proof.
  intros Hinit.
  apply init_command_Done in Hinit as (fs1 & fs2 & H1 & H2 & Hlast).
  assert (Hdirs2 : (exists c, fs_lookup fs2 (workspace ++ [".agent-os"]) = Some (Dir c)) /\
                   (forall name, name ∈ INIT_SUBDIRS ->
                      exists c, fs_lookup fs2 ((workspace ++ [".agent-os"]) ++ [name])
                                = Some (Dir c))).
  { split.
    - destruct (mkdir_makes_dir _ _ _ H1) as (c & Hc).
      destruct (mkdir_each_frame _ _ _ _ _ _ H2 Hc) as ([ | |c'] & Hy & Hk); try done.
      by eexists.
    - intros name Hin. by apply (mkdir_each_makes_dirs _ _ _ _ _ H2). }
  assert (Hfresh2 : fs_lookup fs (workspace ++ [".agent-os"] ++ ["config.yaml"]) = None ->
                    fs_lookup fs2 (workspace ++ [".agent-os"] ++ ["config.yaml"]) = None).
  { intros Hn.
    apply (mkdir_each_elsewhere (workspace ++ [".agent-os"]) INIT_SUBDIRS _) with (fs := fs1);
      [|done|].
    - intros name Hin Heq. rewrite app_assoc in Heq.
      apply app_inj_tail in Heq as [_ <-].
      repeat (apply elem_of_cons in Hin as [Hin | Hin]; [discriminate Hin|]).
      by apply elem_of_nil in Hin.
    - apply (mkdir_elsewhere _ _ _ _ H1 Hn). intros Heq.
      apply (f_equal (@length string)) in Heq. rewrite !length_app in Heq.
      simpl in Heq. lia. }
  destruct Hdirs2 as [Hagent Hsubs].
  destruct Hlast as [[Hex ->] | [Hex Hput]].
  - split_and!; [done | done | |].
    + unfold node_exists in Hex. destruct (fs_lookup fs2 _) as [y|]; [by eexists | done].
    + intros Hn. apply Hfresh2 in Hn. unfold node_exists in Hex. by rewrite Hn in Hex.
  - assert (Hnew : fs_lookup fs' (workspace ++ [".agent-os"] ++ ["config.yaml"])
                   = Some (File CONFIG_CONTENT)).
    { apply fs_put_lookup in Hput. unfold node_exists in Hex.
      by destruct (fs_lookup fs2 _). }
    split_and!.
    + destruct Hagent as (c & Hc).
      destruct (put_new_frame _ _ _ _ _ _ Hput Hc) as ([ | |c'] & Hy & Hk); try done.
      by eexists.
    + intros name Hin. destruct (Hsubs name Hin) as (c & Hc).
      destruct (put_new_frame _ _ _ _ _ _ Hput Hc) as ([ | |c'] & Hy & Hk); try done.
      by eexists.
    + by eexists.
    + done.
Qed.

(** X24.  After [init] the workspace holds the directory [.agent-os] with the
    directories [specs], [tasks] and [standards] and an entry [config.yaml],
    which is the default configuration when there was none before. *)
Theorem init_creates_structure (fs fs' : node) (workspace : path) :
  init_command fs workspace = Done fs' ->
  (exists c, fs_lookup fs' (workspace ++ [".agent-os"]) = Some (Dir c)) /\
  (forall name, name ∈ ["specs"; "tasks"; "standards"] ->
     exists c, fs_lookup fs' ((workspace ++ [".agent-os"]) ++ [name]) = Some (Dir c)) /\
  node_exists fs' (workspace ++ [".agent-os"] ++ ["config.yaml"]) = true /\
  (node_exists fs (workspace ++ [".agent-os"] ++ ["config.yaml"]) = false ->
   fs_lookup fs' (workspace ++ [".agent-os"] ++ ["config.yaml"])
   = Some (File CONFIG_CONTENT)).
Proof.
  intros Hinit. destruct (init_result _ _ _ Hinit) as (Ha & Hs & (y & Hy) & Hf).
  split_and!; [done | done | |].
  - unfold node_exists. by rewrite Hy.
  - intros Hn. apply Hf. unfold node_exists in Hn. by destruct (fs_lookup fs _).
Qed.

(** X25.  Running [init] again on its own result changes nothing. *)
Theorem init_idempotent (fs fs' : node) (workspace : path) :
  init_command fs workspace = Done fs' ->
  init_command fs' workspace = Done fs'.
Proof.
  intros Hinit. destruct (init_result _ _ _ Hinit) as ((c & Ha) & Hs & (y & Hy) & _).
  unfold init_command. cbv zeta.
  rewrite (mkdir_existing _ _ _ Ha). cbn [and_then].
  rewrite (mkdir_each_existing _ _ _ Hs). cbn [and_then].
  rewrite <- app_assoc. unfold node_exists. by rewrite Hy.
Qed.

Section InitThenLoad.

Variable json_loads : string -> parsed.
Variable yaml : option (string -> parsed).
Variable path_str : path -> string.

(** X26.  After [init] the workspace layer is read from [config.yaml]; a
    [config.yml] or [config.json] of the workspace is not read any more. *)
Theorem init_then_collect (h : host) (workspace : path) (fs' : node) :
  init_command (fs_root h) workspace = Done fs' ->
  _collect_layer_config json_loads yaml path_str (with_fs h fs') (ws_dir workspace)
  = _load_file json_loads yaml path_str (with_fs h fs')
      (ws_dir workspace ++ ["config.yaml"]).
Proof.
  intros Hinit. destruct (init_result _ _ _ Hinit) as (_ & _ & (y & Hy) & _).
  unfold _collect_layer_config. cbn [first_config CONFIG_FILENAMES].
  assert (Hex : path_exists (with_fs h fs') (ws_dir workspace ++ ["config.yaml"]) = true).
  { unfold path_exists, ws_dir. cbn [fs_root with_fs]. rewrite <- app_assoc. by rewrite Hy. }
  by rewrite Hex.
Qed.

End InitThenLoad.

(** *** The commands at concrete inputs *)

Lemma config_shows_merged_layers_witness :
  config_command sample_loads None posix_str posix_path layered_host ["w"] true
  = Ok (Some (VList [VStr "package"; VStr "/w/.agent-os"; VStr "env"]),
        [("level", VStr "TRACE")]) /\
  [("level", VStr "TRACE")]
  = _deep_merge
      (_deep_merge
         (_deep_merge (_deep_merge [] [("level", VStr "INFO")]) [])
         [("level", VStr "DEBUG")])
      [("level", VStr "TRACE")].
Proof.
  split; [reflexivity|].
  apply (config_shows_merged_layers sample_loads None posix_str posix_path
           layered_host ["w"] true
           (Some (VList [VStr "package"; VStr "/w/.agent-os"; VStr "env"]))
           _ (VDict [("level", VStr "TRACE")])); reflexivity.
Defined.


Lemma init_keeps_what_was_there_witness :
  exists y,
    fs_lookup json_workspace_after_init ["w"; ".agent-os"; "config.json"] = Some y /\
    same_kind (File debug_text) y.
Proof.
  apply (init_keeps_what_was_there json_workspace json_workspace_after_init ["w"]);
    reflexivity.
Defined.

Lemma init_creates_structure_witness :
  node_exists json_workspace ["w"; ".agent-os"; "config.yaml"] = false /\
  fs_lookup json_workspace_after_init ["w"; ".agent-os"; "config.yaml"]
  = Some (File CONFIG_CONTENT).
Proof.
  split; [reflexivity|].
  apply (init_creates_structure json_workspace json_workspace_after_init ["w"]);
    reflexivity.
Defined.

Lemma init_idempotent_witness :
  init_command json_workspace_after_init ["w"] = Done json_workspace_after_init.
Proof. apply (init_idempotent json_workspace). reflexivity. Defined.

Lemma init_then_collect_witness :
  sample_collect (posix_host json_workspace []) (ws_dir ["w"])
  = VDict [("level", VStr "DEBUG")] /\
  sample_collect (with_fs (posix_host json_workspace []) json_workspace_after_init)
    (ws_dir ["w"])
  = _load_file sample_loads None posix_str
      (with_fs (posix_host json_workspace []) json_workspace_after_init)
      (ws_dir ["w"] ++ ["config.yaml"]) /\
  sample_collect (with_fs (posix_host json_workspace []) json_workspace_after_init)
    (ws_dir ["w"]) = VDict [].
Proof.
  split; [reflexivity|]. split; [|reflexivity].
  apply (init_then_collect sample_loads None posix_str (posix_host json_workspace []) ["w"]).
  reflexivity.
Defined.

(** ** The coordinator *)

Section Workflows.

Variable Agent : Type.
Variable key_eqb : value -> value -> bool.

Local Abbreviation do_step := (run_step Agent key_eqb).
Local Abbreviation do_steps := (run_steps Agent key_eqb).
Local Abbreviation execute := (execute_workflow Agent key_eqb).
Local Abbreviation put := (results_set key_eqb).

Lemma run_step_runnable (c : coordinator Agent) (res : list (value * value))
  (step : value) :
  runnable Agent c step -> exists res', do_step c res step = Ok res'.
Proof.
  intros (sd & -> & Hreg & Hname). unfold run_step. cbv zeta.
  assert (Hh : hashable (get_or_none "agent" sd) = true)
    by (by destruct (get_or_none "agent" sd)).
  rewrite Hh, Hreg. cbn [negb].
  destruct (dict_get "name" sd) as [v|]; [rewrite Hname|]; by eexists.
Qed.


Lemma run_step_unknown (c : coordinator Agent) (res : list (value * value))
  (step : value) :
  unknown_agent Agent c step -> do_step c res step = Raise ValueError.
Proof.
  intros (sd & -> & Hh & Hreg). unfold run_step. cbv zeta.
  by rewrite Hh, Hreg.
Qed.



(** X27.  [execute_workflow] raises [ValueError] at the first step that names
    no registered agent, whatever steps come after it. *)
Theorem workflow_stops_at_unknown_agent (c : coordinator Agent) (d : dict)
  (before after : list value) (bad : value) :
  dict_get "steps" d = Some (VList (before ++ bad :: after)) ->
  Forall (runnable Agent c) before ->
  unknown_agent Agent c bad ->
  execute c (VDict d) = Raise ValueError.
Proof.
  intros Hsteps Hrun Hbad. unfold execute_workflow. rewrite Hsteps.
  cbn [iterate mbind result_bind]. clear Hsteps. generalize (@nil (value * value)).
  induction Hrun as [|step before Hstep Hrun IH]; intros res; cbn [app run_steps].
  - by rewrite run_step_unknown.
  - destruct (run_step_runnable c res step Hstep) as (res' & ->).
    cbn [mbind result_bind]. apply IH.
Qed.


(** *** Names *)

Hypothesis key_eqb_strings : forall s t, key_eqb (VStr s) (VStr t) = String.eqb s t.




End Workflows.

Section Registration.

Variable Agent : Type.

Lemma agents_set_names (name s : string) (a : Agent) (l : list (string * Agent)) :
  existsb (String.eqb s) (map fst (agents_set Agent name a l))
  = existsb (String.eqb s) (map fst l) || String.eqb s name.
Proof.
  induction l as [|[name' a'] l IH]; simpl.
  - by rewrite orb_false_r.
  - destruct (String.eqb_spec name name') as [<- | Hne]; simpl.
    + destruct (String.eqb s name); by rewrite ?orb_true_r, ?orb_false_r.
    + rewrite IH. by rewrite orb_assoc.
Qed.

(** X17.  After [register_agent] the agents that are registered are those
    that were, and the one just named: a step naming it is accepted, and no
    step that was accepted is refused. *)
Theorem register_agent_registers (c : coordinator Agent) (name : string) (a : Agent) :
  (forall v, registered Agent (register_agent Agent c name a) v
             = registered Agent c v
               || match v with VStr s => String.eqb s name | _ => false end) /\
  (forall step, runnable Agent c step ->
                runnable Agent (register_agent Agent c name a) step) /\
  (forall sd, dict_get "agent" sd = Some (VStr name) ->
              dict_get "name" sd = None ->
              runnable Agent (register_agent Agent c name a) (VDict sd)).
Proof.
  assert (Hreg : forall v, registered Agent (register_agent Agent c name a) v
             = registered Agent c v
               || match v with VStr s => String.eqb s name | _ => false end).
  { intros [ | | | |s| | ]; try reflexivity. apply agents_set_names. }
  split_and!; [exact Hreg | |].
  - intros step (sd & -> & Hr & Hn). exists sd. split_and!; [done | | done].
    by rewrite Hreg, Hr.
  - intros sd Ha Hn. exists sd. split_and!; [done | | by rewrite Hn].
    rewrite Hreg. unfold get_or_none. rewrite Ha.
    by rewrite String.eqb_refl, orb_true_r.
Qed.

End Registration.

Lemma workflow_stops_at_unknown_agent_witness :
  execute_workflow unit sample_key_eqb sample_coordinator (VDict broken_workflow)
  = Raise ValueError.
Proof.
  apply (workflow_stops_at_unknown_agent unit sample_key_eqb sample_coordinator
           broken_workflow [VDict [("agent", VStr "planner")]] [VInt 3]
           (VDict [("agent", VStr "tester")])).
  - reflexivity.
  - repeat constructor. eexists. by split_and!.
  - eexists. by split_and!.
Defined.



